(** * The import-map synchronisation gateway of [@collagejs/vite-aim]

    A shallow embedding of [packages/aim/src/plugin-factory.ts]: the sender
    injector ([findLastImportStatement], [transform]), the identifier
    resolver ([resolveFromImportMap], [resolveId]), the admission filter
    ([joinPaths], [shouldBlockJavaScriptRequest]) and the three request
    middlewares installed by [configureServer].

    Conventions.
    - A JavaScript string is a sequence of code units; the model keeps the
      code units below 256, one [ascii] each.
    - State that the plug-in closes over ([importMap], the readiness event,
      [externalizedModules]) and the response object under construction are
      threaded through a state-and-exception monad in which a [throw] keeps
      the mutations made before it, as in JavaScript.
    - The logger is an external collaborator: a log call records its level
      and what was logged and never fails.  Building the text of a log
      line can fail: where the code puts a value it received into a log
      line, the conversion of that value to a string is modelled by
      whether it throws. *)

From Stdlib Require Import String Ascii List Bool Arith ZArith Lia Permutation.
From Stdlib Require Import DecimalString PrimFloat.
Import ListNotations.
Local Open Scope string_scope.
Local Open Scope nat_scope.

(* ================================================================== *)
(** * Part I. Definitions                                              *)
(* ================================================================== *)

(** ** JavaScript strings *)

Module JsString.

Definition LF : ascii := ascii_of_nat 10.
Definition newline : string := String LF EmptyString.

(** [LineTerminator] of the language grammar (code units below 256). *)
Definition is_line_terminator (c : ascii) : bool :=
  let n := nat_of_ascii c in (n =? 10) || (n =? 13).

(** The class [\s]: white space and line terminators. *)
Definition is_space (c : ascii) : bool :=
  let n := nat_of_ascii c in
  ((9 <=? n) && (n <=? 13)) || (n =? 32) || (n =? 160).

(** The class [.] without the [s] flag. *)
Definition is_dot (c : ascii) : bool := negb (is_line_terminator c).

(** [s.slice(n)] for [0 <= n]. *)
Fixpoint slice_from (s : string) (n : nat) : string :=
  match n, s with
  | 0, _ => s
  | S n', String _ s' => slice_from s' n'
  | S _, EmptyString => EmptyString
  end.

(** [s.slice(0, n)] for [0 <= n]. *)
Fixpoint slice_to (s : string) (n : nat) : string :=
  match n, s with
  | 0, _ => EmptyString
  | S n', String c s' => String c (slice_to s' n')
  | S _, EmptyString => EmptyString
  end.

Definition startsWith (s p : string) : bool := String.prefix p s.

Definition endsWith (s p : string) : bool :=
  (String.length p <=? String.length s) &&
  String.eqb (slice_from s (String.length s - String.length p)) p.

(** [s.includes(sub)]. *)
Fixpoint includes (s sub : string) : bool :=
  String.prefix sub s ||
  match s with
  | EmptyString => false
  | String _ s' => includes s' sub
  end.

Fixpoint rev_onto (s acc : string) : string :=
  match s with
  | EmptyString => acc
  | String c s' => rev_onto s' (String c acc)
  end.

Definition rev (s : string) : string := rev_onto s EmptyString.

Fixpoint trimStart (s : string) : string :=
  match s with
  | String c s' => if is_space c then trimStart s' else s
  | EmptyString => EmptyString
  end.

(** [s.trim()]. *)
Definition trim (s : string) : string := rev (trimStart (rev (trimStart s))).

(** Number of leading code units of [s] that are in the class [p]. *)
Fixpoint count_while (p : ascii -> bool) (s : string) : nat :=
  match s with
  | String c s' => if p c then S (count_while p s') else 0
  | EmptyString => 0
  end.

(** [String(n)] for a non-negative integer. *)
Definition of_nat (n : nat) : string := NilEmpty.string_of_uint (Nat.to_uint n).

End JsString.

(** ** Regular expressions

  A backtracking matcher for the constructs the plug-in's patterns use:
  anchors, single code units, classes, greedy repetition of a class,
  greedy option, alternation and sequence.  [matchR r s i k] matches [r]
  at index [i] of [s] and hands the end index to the continuation [k];
  when [k] fails the matcher backtracks, as the language's matcher does. *)

Module Regex.
Import JsString.

Inductive re : Type :=
| Bol                         (* ^  *)
| Eol                         (* $  *)
| Chr (c : ascii)             (* a literal code unit *)
| Cls (p : ascii -> bool)     (* \s  . *)
| Star (p : ascii -> bool)    (* \s*  *)
| Plus (p : ascii -> bool)    (* .+  \/+ *)
| Opt (r : re)                (* ;? *)
| Alt (r1 r2 : re)            (* r1|r2 *)
| Seq (r1 r2 : re).

(** A literal word, as a sequence of [Chr]. *)
Fixpoint Lit (w : string) (rest : re) : re :=
  match w with
  | EmptyString => rest
  | String c w' => Seq (Chr c) (Lit w' rest)
  end.

(** [^] at index [i]; [m] is the multiline flag. *)
Definition at_bol (m : bool) (s : string) (i : nat) : bool :=
  match i with
  | 0 => true
  | S j => m && match String.get j s with
                | Some c => is_line_terminator c
                | None => false
                end
  end.

(** [$] at index [i]. *)
Definition at_eol (m : bool) (s : string) (i : nat) : bool :=
  match String.get i s with
  | Some c => m && is_line_terminator c
  | None => i =? String.length s
  end.

(** Greedy backtracking over a repetition: try the continuation after
    [lo + n] code units, then after one fewer, down to [lo]. *)
Fixpoint try_back (k : nat -> option nat) (lo n : nat) : option nat :=
  match k (lo + n) with
  | Some e => Some e
  | None => match n with
            | 0 => None
            | S n' => try_back k lo n'
            end
  end.

Fixpoint matchR (m : bool) (r : re) (s : string) (i : nat)
         (k : nat -> option nat) : option nat :=
  match r with
  | Bol => if at_bol m s i then k i else None
  | Eol => if at_eol m s i then k i else None
  | Chr a => match String.get i s with
             | Some c => if Ascii.eqb a c then k (S i) else None
             | None => None
             end
  | Cls p => match String.get i s with
             | Some c => if p c then k (S i) else None
             | None => None
             end
  | Star p => try_back k i (count_while p (slice_from s i))
  | Plus p => match count_while p (slice_from s i) with
              | 0 => None
              | S n => try_back k (S i) n
              end
  | Opt r1 => match matchR m r1 s i k with
              | Some e => Some e
              | None => k i
              end
  | Alt r1 r2 => match matchR m r1 s i k with
                 | Some e => Some e
                 | None => matchR m r2 s i k
                 end
  | Seq r1 r2 => matchR m r1 s i (fun j => matchR m r2 s j k)
  end.

(** The end index of the match of [r] that starts at [i], if any. *)
Definition match_at (m : bool) (r : re) (s : string) (i : nat) : option nat :=
  matchR m r s i (fun j => Some j).

(** The matcher tries [n] start indices, from [i] upwards. *)
Fixpoint search (m : bool) (r : re) (s : string) (n i : nat)
  : option (nat * nat) :=
  match n with
  | 0 => None
  | S n' => match match_at m r s i with
            | Some e => Some (i, e)
            | None => search m r s n' (S i)
            end
  end.

(** [r.exec(s)] with [r.lastIndex = from]: the index and the end of the
    leftmost match at or after [from]. *)
Definition exec (m : bool) (r : re) (s : string) (from : nat)
  : option (nat * nat) :=
  search m r s (S (String.length s) - from) from.

(** [s.replace(r, fill)] for a pattern without the [g] flag; [fill]
    receives the text before the match, the match and the text after. *)
Definition replace_first (m : bool) (r : re) (s : string)
           (fill : string -> string -> string -> string) : string :=
  match exec m r s 0 with
  | Some (i, e) =>
      slice_to s i ++
      fill (slice_to s i) (slice_to (slice_from s i) (e - i)) (slice_from s e) ++
      slice_from s e
  | None => s
  end.

(** [s.replace(r, '')] for a pattern with the [g] flag: every match,
    left to right, is removed.  [from] is [r.lastIndex]; an empty match
    advances it by one. *)
Fixpoint remove_all (fuel : nat) (m : bool) (r : re) (s : string)
         (from : nat) : string :=
  match fuel with
  | 0 => slice_from s from
  | S fuel' =>
      match exec m r s from with
      | Some (i, e) =>
          slice_to (slice_from s from) (i - from) ++
          (if e =? i
           then slice_to (slice_from s e) 1 ++ remove_all fuel' m r s (S e)
           else remove_all fuel' m r s e)
      | None => slice_from s from
      end
  end.

Definition replace_all_empty (m : bool) (r : re) (s : string) : string :=
  remove_all (S (String.length s)) m r s 0.

End Regex.

(** ** What a match is

    [Matches m s r i j]: the pattern [r] matches the code units [i..j) of
    [s], read off the pattern with no reference to the order in which a
    matcher tries things. *)

Module RegexSpec.
Import JsString Regex.

Definition all_in (p : ascii -> bool) (s : string) (i j : nat) : Prop :=
  forall q, i <= q < j -> exists c, String.get q s = Some c /\ p c = true.

Inductive Matches (m : bool) (s : string) : re -> nat -> nat -> Prop :=
| MBol i : at_bol m s i = true -> Matches m s Bol i i
| MEol i : at_eol m s i = true -> Matches m s Eol i i
| MChr a i : String.get i s = Some a -> Matches m s (Chr a) i (S i)
| MCls p c i : String.get i s = Some c -> p c = true -> Matches m s (Cls p) i (S i)
| MStar p i j : i <= j -> all_in p s i j -> Matches m s (Star p) i j
| MPlus p i j : i < j -> all_in p s i j -> Matches m s (Plus p) i j
| MOptSome r i j : Matches m s r i j -> Matches m s (Opt r) i j
| MOptNone r i : Matches m s (Opt r) i i
| MAltL r1 r2 i j : Matches m s r1 i j -> Matches m s (Alt r1 r2) i j
| MAltR r1 r2 i j : Matches m s r2 i j -> Matches m s (Alt r1 r2) i j
| MSeq r1 r2 i j l :
    Matches m s r1 i j -> Matches m s r2 j l -> Matches m s (Seq r1 r2) i l.

End RegexSpec.

(** ** The sender injector *)

Module Injector.
Import JsString Regex.

(** [/^\s*import\s.+;?$/gm] *)
Definition importRegex : re :=
  Seq Bol (Seq (Star is_space)
    (Lit "import" (Seq (Cls is_space) (Seq (Plus is_dot)
       (Seq (Opt (Chr ";")) Eol))))).

(** The [while ((match = importRegex.exec(code)) !== null)] loop;
    [reLastIndex] is [importRegex.lastIndex]. *)
Fixpoint findLast_loop (fuel : nat) (code : string) (reLastIndex : nat)
         (lastIndex : Z) : Z :=
  match fuel with
  | 0 => lastIndex
  | S fuel' =>
      match exec true importRegex code reLastIndex with
      | Some (index, e) =>
          (* match.index + match[0].length *)
          findLast_loop fuel' code e (Z.of_nat (index + (e - index)))
      | None => lastIndex
      end
  end.

Definition findLastImportStatement (code : string) : Z :=
  findLast_loop (S (String.length code)) code 0 (-1)%Z.

Inductive Command := serve | build.

Definition Command_eqb (a b : Command) : bool :=
  match a, b with
  | serve, serve | build, build => true
  | _, _ => false
  end.

(** [transform(code, id)]; [imsScript] is the text of the sender script
    file.  [None] is the hook's [null].  The source also defines
    [transformStaticImportToDynamic]; [transform] does not call it. *)
Definition transform (command : Command) (imsScript : string)
           (code id : string) : option string :=
  if Command_eqb command build then None
  else if endsWith id "/vite/dist/client/client.mjs" then
    let index := findLastImportStatement code in
    if (index =? -1)%Z
    then Some (imsScript ++ newline ++ code)
    else Some (slice_to code (Z.to_nat index) ++ newline ++ imsScript
               ++ newline ++ slice_from code (Z.to_nat index))
  else None.

End Injector.

(** ** Lines, to compare the scan with a scan line by line *)

Module InjectorSpec.
Import JsString Regex Injector.



End InjectorSpec.

(** ** Objects

  An object is the list of its own enumerable string-keyed properties in
  the order they were created, keys distinct.  Enumeration
  ([Object.keys], [Object.entries], [for ... of Object.entries]) visits
  the array-index keys first, in ascending numeric order, and then the
  other keys in creation order. *)

Module JsObject.
Import JsString.

Definition Record (A : Type) : Type := list (string * A).

Definition is_digit (c : ascii) : bool :=
  let n := nat_of_ascii c in (48 <=? n) && (n <=? 57).

Fixpoint all_digits (s : string) : bool :=
  match s with
  | EmptyString => true
  | String c s' => is_digit c && all_digits s'
  end.

Fixpoint digits_value (s : string) (acc : N) : N :=
  match s with
  | EmptyString => acc
  | String c s' => digits_value s' (acc * 10 + (N_of_ascii c - 48))%N
  end.

(** The keys that are array indices: canonical numerals below 2^32 - 1. *)
Definition array_index (k : string) : option N :=
  match k with
  | EmptyString => None
  | String c rest =>
      if all_digits k && (negb (Ascii.eqb c "0") || String.eqb rest "")
      then let v := digits_value k 0 in
           if (v <? 4294967295)%N then Some v else None
      else None
  end.

Definition is_array_index (k : string) : bool :=
  match array_index k with Some _ => true | None => false end.

Section Enumeration.
Context {A : Type}.

Fixpoint insert_by_index (x : N * (string * A))
         (l : list (N * (string * A))) : list (N * (string * A)) :=
  match l with
  | [] => [x]
  | y :: l' => if (fst x <=? fst y)%N then x :: l
               else y :: insert_by_index x l'
  end.

Fixpoint indexed (o : Record A) : list (N * (string * A)) :=
  match o with
  | [] => []
  | (k, v) :: o' =>
      match array_index k with
      | Some n => insert_by_index (n, (k, v)) (indexed o')
      | None => indexed o'
      end
  end.

(** [Object.entries(o)] *)
Definition entries (o : Record A) : list (string * A) :=
  (map snd (indexed o) ++
   filter (fun kv => negb (is_array_index (fst kv))) o)%list.

(** The own property [k] of [o]. *)
Fixpoint get_own (o : Record A) (k : string) : option A :=
  match o with
  | [] => None
  | (k', v) :: o' => if String.eqb k' k then Some v else get_own o' k
  end.
End Enumeration.

(** What an ordinary object inherits from [Object.prototype]. *)
Definition Object_prototype : list string :=
  [ "constructor"; "__defineGetter__"; "__defineSetter__"; "hasOwnProperty";
    "__lookupGetter__"; "__lookupSetter__"; "isPrototypeOf";
    "propertyIsEnumerable"; "toString"; "valueOf"; "__proto__";
    "toLocaleString" ].

Definition inherited (k : string) : bool :=
  existsb (String.eqb k) Object_prototype.

(** [Array.prototype.sort()] on strings: ascending by code units. *)
Fixpoint insert_sorted (x : string) (l : list string) : list string :=
  match l with
  | [] => [x]
  | y :: l' => if String.leb x y then x :: l else y :: insert_sorted x l'
  end.

Fixpoint sort (l : list string) : list string :=
  match l with
  | [] => []
  | x :: l' => insert_sorted x (sort l')
  end.

End JsObject.

(** ** Values produced by [JSON.parse] *)

Module Json.
Import JsString JsObject.

#[warnings="-register-all"]
Inductive json : Type :=
| JNull
| JBool (b : bool)
| JNumber (x : float)
| JString (s : string)
| JArray (l : list json)
| JObject (o : list (string * json)).

(** [typeof v === 'object' && v !== null] *)
Definition is_non_null_object (v : json) : bool :=
  match v with
  | JArray _ | JObject _ => true
  | _ => false
  end.

(** [ToBoolean]; [None] is [undefined]. *)
Definition truthy (v : option json) : bool :=
  match v with
  | None | Some JNull => false
  | Some (JBool b) => b
  | Some (JNumber x) => negb (PrimFloat.eqb x 0 || PrimFloat.is_nan x)
  | Some (JString s) => negb (String.eqb s "")
  | Some (JArray _) | Some (JObject _) => true
  end.

Fixpoint code_units (s : string) : list string :=
  match s with
  | EmptyString => []
  | String c s' => String c EmptyString :: code_units s'
  end.

Definition indices (n : nat) : list string := map of_nat (seq 0 n).

(** [Object.entries(v)] for [v] neither [null] nor [undefined]. *)
Definition Object_entries (v : json) : list (string * json) :=
  match v with
  | JObject o => entries o
  | JArray l => combine (indices (List.length l)) l
  | JString s => combine (indices (String.length s)) (map JString (code_units s))
  | _ => []
  end.

(** [Object.keys(v)] *)
Definition Object_keys (v : json) : list string := map fst (Object_entries v).

(** [v.k] where no prototype defines [k]. *)
Definition prop (v : json) (k : string) : option json :=
  match v with
  | JObject o => get_own o k
  | _ => None
  end.

(** Whether the conversion of a parsed value to a string ([String(v)],
    a template literal, [+] with a string) throws a [TypeError].  A
    primitive always converts.  An object made by [JSON.parse] converts
    through [Object.prototype.toString], unless it has an own property
    [toString]: that holds a value that is no function, [valueOf] is then
    either an own property that is no function or the inherited one that
    returns the object, and the conversion throws.  An array converts
    through [join], which converts each of its elements. *)
Fixpoint ToString_throws (v : json) : bool :=
  match v with
  | JArray l => existsb ToString_throws l
  | JObject o => match get_own o "toString" with
                 | Some _ => true
                 | None => false
                 end
  | _ => false
  end.

(** [v || {}] *)
Definition or_empty (v : option json) : json :=
  match v with
  | Some x => if truthy v then x else JObject []
  | None => JObject []
  end.

(** ** Text produced by [JSON.stringify] for the response bodies *)

#[warnings="-register-all"]
Inductive out : Type :=
| OString (s : string)
| OBool (b : bool)
| ONat (n : nat)
| OObject (fields : list (string * out)).

Definition dquote : string := String (ascii_of_nat 34) EmptyString.
Definition backslash : string := String (ascii_of_nat 92) EmptyString.

Fixpoint escape (s : string) : string :=
  match s with
  | EmptyString => EmptyString
  | String c s' =>
      (if (nat_of_ascii c =? 34) || (nat_of_ascii c =? 92)
       then backslash else "") ++ String c (escape s')
  end.

Definition quote (s : string) : string := dquote ++ escape s ++ dquote.

Fixpoint JSON_stringify (v : out) : string :=
  match v with
  | OString s => quote s
  | OBool b => if b then "true" else "false"
  | ONat n => of_nat n
  | OObject fields =>
      "{" ++ String.concat ","
               (map (fun kv => quote (fst kv) ++ ":" ++ JSON_stringify (snd kv))
                    fields)
          ++ "}"
  end.

End Json.

(** ** The identifier resolver *)

Module Resolver.
Import JsString JsObject.

(** [ImportMap] of [@collagejs/shared]. *)
Record ImportMap : Type := {
  imports : option (Record string);
  scopes : option (Record (Record string));
  integrity : option (Record string)
}.

(** What reading a property of an [imports] object can give, and [null]. *)
Inductive jsval : Type :=
| VUndefined
| VNull
| VString (s : string)
| VInherited (name : string).   (* a member of Object.prototype *)

Definition truthy (v : jsval) : bool :=
  match v with
  | VUndefined | VNull => false
  | VString s => negb (String.eqb s "")
  | VInherited _ => true
  end.

(** [o[k]]: the own property, else the one inherited. *)
Definition Get (o : Record string) (k : string) : jsval :=
  match get_own o k with
  | Some v => VString v
  | None => if inherited k then VInherited k else VUndefined
  end.

(** The [for (const [key, value] of Object.entries(...))] loop. *)
Fixpoint prefix_loop (es : list (string * string)) (id : string) : jsval :=
  match es with
  | [] => VNull
  | (key, value) :: es' =>
      if endsWith key "/" && startsWith id key
      then let remainder := slice_from id (String.length key) in
           VString (value ++ remainder)
      else prefix_loop es' id
  end.

Definition resolveFromImportMap (importMap : ImportMap) (id : string) : jsval :=
  match imports importMap with
  | None => VNull
  | Some o =>
      if truthy (Get o id) then Get o id
      else prefix_loop (entries o) id
  end.

Record ResolveIdResult : Type := { id : jsval; external : bool }.

(** [a || b] *)
Definition or_else (a b : jsval) : jsval := if truthy a then a else b.

(** [externalizedModules.add(x)] *)
Definition jsval_eqb (a b : jsval) : bool :=
  match a, b with
  | VUndefined, VUndefined | VNull, VNull => true
  | VString x, VString y => String.eqb x y
  | VInherited x, VInherited y => String.eqb x y
  | _, _ => false
  end.

Definition Set_add (x : jsval) (s : list jsval) : list jsval :=
  if existsb (jsval_eqb x) s then s else (s ++ [x])%list.

(** The [resolveId] hook: the result ([None] is [null]) and the new
    [externalizedModules]. *)
Definition resolveId (isBareIdentifier : string -> bool)
           (importMap : ImportMap) (externalizedModules : list jsval)
           (id_ : string) : option ResolveIdResult * list jsval :=
  if negb (isBareIdentifier id_) then (None, externalizedModules)
  else
    let resolved := resolveFromImportMap importMap id_ in
    (Some {| id := or_else resolved (VString id_); external := true |},
     Set_add (or_else resolved (VString id_)) externalizedModules).

End Resolver.

(** ** The prefix rule, read as a search *)

Module ResolverSpec.
Import JsString JsObject Resolver.

(** The test of the prefix loop on one entry. *)
Definition prefix_applies (id : string) (kv : string * string) : bool :=
  endsWith (fst kv) "/" && startsWith id (fst kv).

(** The first entry, in creation order, whose key ends in [/] and is a
    prefix of [id], applied to [id]; [null] when there is none. *)
Definition first_prefix_match (o : Record string) (id : string) : jsval :=
  match find (prefix_applies id) o with
  | Some (key, value) => VString (value ++ slice_from id (String.length key))
  | None => VNull
  end.

End ResolverSpec.

(** ** The development server side *)

Module Server.
Import JsString Regex Injector JsObject Json.

(** *** Options and configuration *)

Record PluginOptions : Type := {
  isRoot : bool;
  isBareIdentifier : string -> bool;
  importMapEndpoint : string;
  importMapSenderEndpoint : string;
  allowedOrigins : list string;
  importMapTimeout : nat
}.

(** The defaults of [importMapPlugin(options = {})]. *)
Definition defaultOptions : PluginOptions := {|
  isRoot := true;
  isBareIdentifier := fun id => startsWith id "@";
  importMapEndpoint := "/__current_import_map";
  importMapSenderEndpoint := "/__collagejs-import-map-sender.js";
  allowedOrigins := [];
  importMapTimeout := 5000
|}.

(** The fields of Vite's [ResolvedConfig] that the plug-in reads. *)
Record ResolvedConfig : Type := {
  base : string;
  command : Command
}.

(** *** [joinPaths] *)

Definition is_slash (c : ascii) : bool := Ascii.eqb c "/".

(** [/\/+$/g] *)
Definition trailingSlashes : re := Seq (Plus is_slash) Eol.

(** [/^\/+|\/+$/g] *)
Definition edgeSlashes : re :=
  Alt (Seq Bol (Plus is_slash)) (Seq (Plus is_slash) Eol).

Fixpoint map_index {A B : Type} (f : A -> nat -> B) (l : list A) (index : nat)
  : list B :=
  match l with
  | [] => []
  | x :: l' => f x index :: map_index f l' (S index)
  end.

Definition joinPaths (config : ResolvedConfig) (paths : list string) : string :=
  let paths := base config :: paths in       (* paths.unshift(config.base) *)
  String.concat "/"
    (filter (fun x => negb (String.length x =? 0))
       (map_index
          (fun part index =>
             if index =? 0
             then replace_all_empty false trailingSlashes (trim part)
             else replace_all_empty false edgeSlashes (trim part))
          paths 0)).

Definition importMapSenderUrl (o : PluginOptions) (config : ResolvedConfig) : string :=
  joinPaths config [importMapSenderEndpoint o].

Definition importMapEndpointUrl (o : PluginOptions) (config : ResolvedConfig) : string :=
  joinPaths config [importMapEndpoint o].

(** *** Requests, responses, state *)

Record Request : Type := {
  method : string;
  url : string;
  headers_origin : option string;
  headers_referer : option string
}.

Definition Headers : Type := list (string * string).

(** The response: the head once written, the body once ended. *)
Record Response : Type := {
  head : option (nat * Headers);
  body : option string
}.

Definition freshResponse : Response := {| head := None; body := None |}.

(** What the plug-in instance shares between requests: [importMap] and
    whether [importMapReadyEvent] is signaled. *)
Record Shared : Type := {
  importMap : json;
  signaled : bool
}.

(** [let importMap: ImportMap = { imports: {} }] and a fresh event. *)
Definition initialShared : Shared :=
  {| importMap := JObject [("imports", JObject [])]; signaled := false |}.

Inductive JsError : Type :=
| Error_ (message : string)
| SyntaxError_
| TypeError_
| ERR_HTTP_HEADERS_SENT
| SystemError_ (code : string).

Inductive LogLevel := info | warn | error.

Inductive LogMessage : Type :=
| RejectedOrigin (origin : option string)
| ReceivedImportMap (origin : option string) (importCount scopeCount : nat)
| ImportEntry (key : string) (value : json)
| FailedToParse (e : JsError)
| BlockingRequest (url : string)
| TimeoutWaiting (url : string)
| ImportMapReceived (url : string)
| ErrorWaiting (url : string) (e : JsError)
| FailedToReadSender (e : JsError).

Record World : Type := {
  shared : Shared;
  res : Response;
  nextCalls : nat;
  logged : list (LogLevel * LogMessage)
}.

Definition enter (s : Shared) : World :=
  {| shared := s; res := freshResponse; nextCalls := 0; logged := [] |}.

(** *** The monad: state, and exceptions that keep the state *)

Inductive Outcome (A : Type) : Type :=
| Returned (a : A)
| Thrown (e : JsError).
Arguments Returned {A} a.
Arguments Thrown {A} e.

Definition M (A : Type) : Type := World -> Outcome A * World.

Definition ret {A : Type} (a : A) : M A := fun w => (Returned a, w).

Definition bind {A B : Type} (c : M A) (f : A -> M B) : M B :=
  fun w => match c w with
           | (Returned a, w') => f a w'
           | (Thrown e, w') => (Thrown e, w')
           end.

Definition throw {A : Type} (e : JsError) : M A := fun w => (Thrown e, w).

Definition try_catch {A : Type} (c : M A) (h : JsError -> M A) : M A :=
  fun w => match c w with
           | (Returned a, w') => (Returned a, w')
           | (Thrown e, w') => h e w'
           end.

Notation "x <- c ;; k" := (bind c (fun x => k))
  (at level 61, c at next level, right associativity).
Notation "c ;; k" := (bind c (fun _ => k))
  (at level 61, right associativity).

Definition lift {A : Type} (r : JsError + A) : M A :=
  match r with
  | inl e => throw e
  | inr a => ret a
  end.

Fixpoint for_each {A : Type} (l : list A) (f : A -> M unit) : M unit :=
  match l with
  | [] => ret tt
  | x :: l' => f x ;; for_each l' f
  end.

Definition logger (level : LogLevel) (msg : LogMessage) : M unit :=
  fun w => (Returned tt,
            {| shared := shared w; res := res w; nextCalls := nextCalls w;
               logged := (logged w ++ [(level, msg)])%list |}).

Definition setShared (s : Shared) : M unit :=
  fun w => (Returned tt,
            {| shared := s; res := res w; nextCalls := nextCalls w;
               logged := logged w |}).

Definition getShared : M Shared := fun w => (Returned (shared w), w).

(** [res.writeHead(status, headers)]: the head can be written once; a
    second call throws. *)
Definition writeHead (status : nat) (headers : Headers) : M unit :=
  fun w => match head (res w) with
           | Some _ => (Thrown ERR_HTTP_HEADERS_SENT, w)
           | None =>
               (Returned tt,
                {| shared := shared w;
                   res := {| head := Some (status, headers); body := body (res w) |};
                   nextCalls := nextCalls w; logged := logged w |})
           end.

(** [res.end(data)]: sends [data] under the head written, or under the
    implicit head (status 200) when none was. *)
Definition end_ (data : string) : M unit :=
  fun w => (Returned tt,
            {| shared := shared w;
               res := {| head := match head (res w) with
                                 | Some h => Some h
                                 | None => Some (200, [])
                                 end;
                         body := match body (res w) with
                                 | Some b => Some b
                                 | None => Some data
                                 end |};
               nextCalls := nextCalls w; logged := logged w |}).

Definition next : M unit :=
  fun w => (Returned tt,
            {| shared := shared w; res := res w; nextCalls := S (nextCalls w);
               logged := logged w |}).

(** [importMapReadyEvent.signal()] *)
Definition signal : M unit :=
  s <- getShared ;; setShared {| importMap := importMap s; signaled := true |}.

(** A suspension of the handler ([await], or waiting for the request
    body): the other requests served meanwhile change the shared state by
    [others]. *)
Definition suspend (others : Shared -> Shared) : M unit :=
  s <- getShared ;; setShared (others s).

(** *** [isOriginAllowed] *)

Definition isOriginAllowed (o : PluginOptions) (origin : option string) : bool :=
  match origin with
  | None => false
  | Some origin =>
      if String.eqb origin "" then false
      else if includes origin "localhost" || includes origin "127.0.0.1"
              || includes origin "[::1]"
      then true
      else existsb (fun allowed => includes origin allowed) (allowedOrigins o)
  end.

(** *** The admission filter *)

Definition stockPathExceptions (o : PluginOptions) (config : ResolvedConfig)
  : list string :=
  ([ joinPaths config ["/index.html"];
     joinPaths config ["/"];
     joinPaths config ["/@vite/client"] ]
   ++ (if isRoot o then [joinPaths config [importMapSenderEndpoint o]] else []))%list.

Definition shouldBlockJavaScriptRequest (o : PluginOptions)
           (config : ResolvedConfig) (s : Shared) (req : Request) : bool :=
  if negb (Command_eqb (command config) serve) then false
  else if negb (String.eqb (method req) "GET") then false
  else if signaled s then false
  else if existsb (String.eqb (url req)) (stockPathExceptions o config) then false
  else true.

(** *** The import map endpoint *)

Definition keysMessage : string :=
  "Import map can only contain " ++ dquote ++ "imports" ++ dquote ++ " and "
  ++ dquote ++ "scopes" ++ dquote ++ " keys.".

Definition validateIm (im : json) : JsError + unit :=
  if negb (is_non_null_object im)
  then inl (Error_ "Import map must be an object.")
  else
    let keys := sort (Object_keys im) in
    match keys with
    | [k0; k1] =>
        if negb (String.eqb k0 "imports") || negb (String.eqb k1 "scopes")
        then inl (Error_ keysMessage)
        else inr tt
    | _ => inl (Error_ keysMessage)
    end.

Definition json_headers : Headers := [("Content-Type", "application/json")].

Definition cors_headers : Headers :=
  [ ("Access-Control-Allow-Origin", "*");
    ("Access-Control-Allow-Methods", "POST, OPTIONS");
    ("Access-Control-Allow-Headers", "Content-Type") ].

(** [req.headers.origin || req.headers.referer] *)
Definition originOf (req : Request) : option string :=
  match headers_origin req with
  | Some o => if String.eqb o "" then headers_referer req else Some o
  | None => headers_referer req
  end.

(** [fmt.url(value)], that is [pc.blueBright(value)]: picocolors converts
    its argument to a string, which throws for a value without a string
    conversion.  The text is kept as the value it is the text of. *)
Definition fmt_url (value : json) : M json :=
  if ToString_throws value then throw TypeError_ else ret value.

Section Endpoint.

(** [JSON.parse]; [None] when it throws a [SyntaxError]. *)
Variable JSON_parse : string -> option json.
Variable o : PluginOptions.

(** The listener of the request's [end] event. *)
Definition onEnd (origin : option string) (body : string) : M unit :=
  try_catch
    (receivedImportMap <- lift (match JSON_parse body with
                                | Some v => inr v
                                | None => inl SyntaxError_
                                end) ;;
     lift (validateIm receivedImportMap) ;;
     s <- getShared ;;
     setShared {| importMap := receivedImportMap; signaled := signaled s |} ;;
     s <- getShared ;;
     let importCount :=
       List.length (Object_keys (or_empty (prop (importMap s) "imports"))) in
     let scopeCount :=
       List.length (Object_keys (or_empty (prop (importMap s) "scopes"))) in
     logger info (ReceivedImportMap origin importCount scopeCount) ;;
     match prop (importMap s) "imports" with
     | Some imports =>
         if truthy (Some imports)
         then for_each (Object_entries imports)
                (fun kv =>
                   text <- fmt_url (snd kv) ;;
                   logger info (ImportEntry (fst kv) text))
         else ret tt
     | None => ret tt
     end ;;
     signal ;;
     writeHead 200 (("Content-Type", "application/json") :: cors_headers) ;;
     end_ (JSON_stringify
             (OObject [("success", OBool true); ("imports", ONat importCount)])))
    (fun error =>
       logger Server.error (FailedToParse error) ;;
       writeHead 400 json_headers ;;
       end_ (JSON_stringify (OObject [("error", OString "Invalid import map data")]))).

(** What the middleware leaves pending when it returns. *)
Inductive Pending : Type :=
| Finished
| AwaitingBody (origin : option string).

Definition importMapEndpointMiddleware (req : Request) : M Pending :=
  if String.eqb (method req) "POST" then
    let origin := originOf req in
    if negb (isOriginAllowed o origin) then
      logger warn (RejectedOrigin origin) ;;
      writeHead 403 json_headers ;;
      end_ (JSON_stringify (OObject [("error", OString "Origin not allowed")])) ;;
      ret Finished
    else ret (AwaitingBody origin)
  else if String.eqb (method req) "OPTIONS" then
    writeHead 200 cors_headers ;;
    end_ "" ;;
    ret Finished
  else
    writeHead 405 [("Content-Type", "application/json"); ("Allow", "POST, OPTIONS")] ;;
    end_ (JSON_stringify (OObject [("error", OString "Method not allowed")])) ;;
    ret Finished.

(** A request to the endpoint from its arrival to its response: the
    middleware, then, once the [chunks] of the body have arrived, the
    [end] listener. *)
Definition receive (others : Shared -> Shared) (req : Request)
           (chunks : list string) : M unit :=
  pending <- importMapEndpointMiddleware req ;;
  match pending with
  | Finished => ret tt
  | AwaitingBody origin =>
      suspend others ;;
      onEnd origin (String.concat "" chunks)
  end.

End Endpoint.

(** *** The blocking middleware *)

Inductive WaitResult := TimedOut | NotTimedOut.

(** How [ManualResetEvent.waitAsync] settles, and what the other requests
    did to the shared state meanwhile. *)
Record Suspension : Type := {
  others : Shared -> Shared;
  settled : JsError + WaitResult
}.

Definition waitAsync (sus : Suspension) : M WaitResult :=
  suspend (others sus) ;; lift (settled sus).

Definition blockingMiddleware (o : PluginOptions) (config : ResolvedConfig)
           (sus : Suspension) (req : Request) : M unit :=
  s <- getShared ;;
  if negb (shouldBlockJavaScriptRequest o config s req) then next
  else
    logger warn (BlockingRequest (url req)) ;;
    try_catch
      (waitResponse <- waitAsync sus ;;
       match waitResponse with
       | TimedOut => logger warn (TimeoutWaiting (url req))
       | NotTimedOut => logger info (ImportMapReceived (url req))
       end)
      (fun error => logger warn (ErrorWaiting (url req) error)) ;;
    next.

(** *** The sender script middleware (installed when [isRoot]) *)

(** [/}\)\(\);$/] *)
Definition senderTail : re := Lit "})();" Eol.

(** The substitution of the [$]-patterns of a replacement text. *)
Fixpoint substitution (repl : string) (before matched after : string) : string :=
  match repl with
  | String "$" (String "$" r) => "$" ++ substitution r before matched after
  | String "$" (String "&" r) => matched ++ substitution r before matched after
  | String "$" (String "`" r) => before ++ substitution r before matched after
  | String "$" (String "'" r) => after ++ substitution r before matched after
  | String c r => String c (substitution r before matched after)
  | EmptyString => EmptyString
  end.

Definition senderMiddleware (o : PluginOptions) (config : ResolvedConfig)
           (readFileSync : JsError + string) : M unit :=
  writeHead 200 [("Content-Type", "application/javascript");
                 ("Access-Control-Allow-Origin", "*")] ;;
  try_catch
    (senderScript <- lift readFileSync ;;
     let senderScript :=
       replace_first false senderTail senderScript
         (substitution ("})(" ++ (if isRoot o then "true" else "false") ++ ", '"
                        ++ importMapEndpointUrl o config ++ "');")) in
     end_ senderScript)
    (fun error =>
       logger Server.error (FailedToReadSender error) ;;
       writeHead 500 json_headers ;;
       end_ (JSON_stringify (OObject [("error", OString "Failed to load sender script")]))).

End Server.

(** ** Responses, origins and requests to state the properties with *)

Module ServerSpec.
Import JsString JsObject Json Server.

(** A response that was sent: its head and its body. *)
Definition sent (status : nat) (headers : Headers) (text : string) : Response :=
  {| head := Some (status, headers); body := Some text |}.

Definition originNotAllowed : string :=
  JSON_stringify (OObject [("error", OString "Origin not allowed")]).

Definition invalidImportMapData : string :=
  JSON_stringify (OObject [("error", OString "Invalid import map data")]).

(** *** An origin read as an address

    The host of an origin or referrer: what follows the scheme, up to the
    path, without the port. *)
Definition after_scheme (origin : string) : string :=
  match String.index 0 "://" origin with
  | Some n => slice_from origin (n + 3)
  | None => origin
  end.

Definition ends_authority (c : ascii) : bool :=
  Ascii.eqb c "/" || Ascii.eqb c "?" || Ascii.eqb c "#".

Definition authority (origin : string) : string :=
  let a := after_scheme origin in
  slice_to a (count_while (fun c => negb (ends_authority c)) a).

Definition host (origin : string) : string :=
  let a := authority origin in
  if startsWith a "["
  then slice_to a (S (count_while (fun c => negb (Ascii.eqb c "]")) a))
  else slice_to a (count_while (fun c => negb (Ascii.eqb c ":")) a).

(** The origin is a loopback address: localhost, 127.0.0.1 or ::1. *)
Definition is_loopback_address (origin : string) : bool :=
  existsb (String.eqb (host origin)) ["localhost"; "127.0.0.1"; "[::1]"; "::1"].

(** *** What the [end] listener reports

    The entries that the [end] listener logs after the summary. *)
Definition loggedEntries (v : json) : list (LogLevel * LogMessage) :=
  match prop v "imports" with
  | Some imports =>
      if truthy (Some imports)
      then map (fun kv => (info, ImportEntry (fst kv) (snd kv))) (Object_entries imports)
      else []
  | None => []
  end.

(** The entries of [imports] that the listener walks, in order. *)
Definition importEntries (v : json) : list (string * json) :=
  match prop v "imports" with
  | Some imports => if truthy (Some imports) then Object_entries imports else []
  | None => []
  end.

(** The entries up to the first whose value has no string conversion. *)
Fixpoint printable_prefix (l : list (string * json)) : list (string * json) :=
  match l with
  | [] => []
  | kv :: l' => if ToString_throws (snd kv) then [] else kv :: printable_prefix l'
  end.

(** Every log line of the listener can be built: each value under
    [imports] has a string conversion, as every string has. *)
Definition logsWithoutThrow (v : json) : bool :=
  forallb (fun kv => negb (ToString_throws (snd kv))) (importEntries v).

Definition importCountOf (v : json) : nat :=
  List.length (Object_keys (or_empty (prop v "imports"))).

Definition scopeCountOf (v : json) : nat :=
  List.length (Object_keys (or_empty (prop v "scopes"))).

(** *** Sample requests

    [JSON.parse] restricted to the texts of a table. *)
Definition parseTable (table : list (string * json)) (text : string) : option json :=
  get_own table text.

Definition emptyMapText : string :=
  JSON_stringify (OObject [("imports", OObject []); ("scopes", OObject [])]).

Definition emptyMap : json := JObject [("imports", JObject []); ("scopes", JObject [])].

Definition importsOnlyText : string :=
  JSON_stringify (OObject [("imports", OObject [])]).

(** A body that validates and holds a value without string conversion:
    [{"imports":{"a":{"toString":1}},"scopes":{}}]. *)
Definition unprintableText : string :=
  JSON_stringify
    (OObject [("imports", OObject [("a", OObject [("toString", ONat 1)])]);
              ("scopes", OObject [])]).

Definition unprintableMap : json :=
  JObject [("imports", JObject [("a", JObject [("toString", JNumber 1%float)])]);
           ("scopes", JObject [])].

Definition post (origin : option string) : Request :=
  {| method := "POST"; url := "/__current_import_map";
     headers_origin := origin; headers_referer := None |}.

Definition get_ (path : string) : Request :=
  {| method := "GET"; url := path;
     headers_origin := None; headers_referer := None |}.

End ServerSpec.

(** ** Paths, to state the properties of [joinPaths] with *)

Module PathSpec.
Import JsString Regex Server.

(** [n] slashes. *)
Fixpoint slashes (n : nat) : string :=
  match n with
  | 0 => EmptyString
  | S n' => String "/" (slashes n')
  end.

(** What [joinPaths] makes of its first part. *)
Definition stripTrailing (part : string) : string :=
  replace_all_empty false trailingSlashes (trim part).

(** What [joinPaths] makes of every other part. *)
Definition stripEdges (part : string) : string :=
  replace_all_empty false edgeSlashes (trim part).

(** [x => x.length] *)
Definition nonEmpty (x : string) : bool := negb (String.length x =? 0).

End PathSpec.

(** ** Build-time externals *)

Module Externals.
Import JsString Regex Injector JsObject.

(** A [RegExp] without the [g] and [y] flags: [test] keeps no state. *)
Record RegExp : Type := { test : string -> bool }.

(** The [RegExp] of a pattern of the matcher above. *)
Definition regExp (multiline : bool) (r : re) : RegExp :=
  {| test := fun s => match exec multiline r s 0 with
                      | Some _ => true
                      | None => false
                      end |}.

(** Rollup's [ExternalOption]; a function option is taken by the
    truthiness of what it returns. *)
Inductive ExternalOption : Type :=
| OptString (s : string)
| OptRegExp (r : RegExp)
| OptArray (l : list (string + RegExp))
| OptFunction (f : string -> option string -> bool -> bool).

(** [opt.includes(source)] *)
Definition array_includes (l : list (string + RegExp)) (source : string) : bool :=
  existsb (fun x => match x with
                    | inl s => String.eqb s source
                    | inr _ => false
                    end) l.

(** [opt.some(r => r instanceof RegExp && r.test(source))] *)
Definition array_some_RegExp (l : list (string + RegExp)) (source : string) : bool :=
  existsb (fun x => match x with
                    | inl _ => false
                    | inr r => test r source
                    end) l.

(** The [for (const opt of options)] loop of the merged function. *)
Fixpoint merged (options : list ExternalOption) (source : string)
         (importer : option string) (isResolved : bool) : bool :=
  match options with
  | [] => false
  | opt :: options' =>
      match opt with
      | OptString s =>
          if String.eqb source s then true
          else merged options' source importer isResolved
      | OptRegExp r =>
          if test r source then true
          else merged options' source importer isResolved
      | OptArray l =>
          if array_includes l source || array_some_RegExp l source then true
          else merged options' source importer isResolved
      | OptFunction f =>
          if f source importer isResolved then true
          else merged options' source importer isResolved
      end
  end.

Definition mergeExternalOptions (options : list ExternalOption) : ExternalOption :=
  OptFunction (merged options).

(** [ToBoolean] of an option that may be absent. *)
Definition truthy (e : option ExternalOption) : bool :=
  match e with
  | None => false
  | Some (OptString s) => negb (String.eqb s "")
  | Some _ => true
  end.

Section Config.

(** What else a configuration object holds. *)
Variable Other : Type.

Record RollupOptions : Type := {
  external : option ExternalOption;
  rollupOther : Record Other
}.

Record BuildOptions : Type := {
  rollupOptions : option RollupOptions;
  buildOther : Record Other
}.

Record UserConfig : Type := {
  build : option BuildOptions;
  configOther : Record Other
}.

(** [config?.build?.rollupOptions?.external] *)
Definition configured (config : UserConfig) : option ExternalOption :=
  match build config with
  | Some b => match rollupOptions b with
              | Some r => external r
              | None => None
              end
  | None => None
  end.

(** The [config] hook; it changes [config] in place, [externals] is the
    plug-in option.  (It also keeps [env] as [runEnv].) *)
Definition configHook (externals : option ExternalOption) (config : UserConfig)
           (command : Command) : UserConfig :=
  if negb (Command_eqb command Injector.build) || negb (truthy externals) then config
  else
    match externals with
    | None => config
    | Some externals =>
        if truthy (configured config) then
          match build config with
          | Some b =>
              match rollupOptions b with
              | Some r =>
                  match external r with
                  | Some existing =>
                      {| build := Some
                           {| rollupOptions := Some
                                {| external := Some (mergeExternalOptions [existing; externals]);
                                   rollupOther := rollupOther r |};
                              buildOther := buildOther b |};
                         configOther := configOther config |}
                  | None => config
                  end
              | None => config
              end
          | None => config
          end
        else
          (* config.build = config.build || {} *)
          let b := match build config with
                   | Some b => b
                   | None => {| rollupOptions := None; buildOther := [] |}
                   end in
          (* config.build.rollupOptions = config.build.rollupOptions || {} *)
          let r := match rollupOptions b with
                   | Some r => r
                   | None => {| external := None; rollupOther := [] |}
                   end in
          {| build := Some {| rollupOptions := Some {| external := Some externals;
                                                       rollupOther := rollupOther r |};
                              buildOther := buildOther b |};
             configOther := configOther config |}
    end.

End Config.

End Externals.

(** ** One option, to state the properties of the merger with *)

Module ExternalsSpec.
Import JsString Externals.

(** One option applied to a module: the test the merged function makes of
    each of its options. *)
Definition applies (opt : ExternalOption) (source : string)
           (importer : option string) (isResolved : bool) : bool :=
  match opt with
  | OptString s => String.eqb source s
  | OptRegExp r => test r source
  | OptArray l =>
      existsb (fun x => match x with
                        | inl s => String.eqb s source
                        | inr r => test r source
                        end) l
  | OptFunction f => f source importer isResolved
  end.

End ExternalsSpec.

(** ** The sender script

    [packages/aim/src/import-map-sender.ts], the script that the plug-in
    serves and injects.  The page and the network are given: the text of
    each [<script type="importmap">] in document order, [JSON.parse],
    [new URL] and [window.location.origin]; a call of [fetch] is recorded
    by its URL and the value it sends. *)

Module Sender.
Import JsString JsObject Json.

(** The fields of a [URL] that the script reads. *)
Record URLParts : Type := {
  protocol : string;
  hostname : string;
  host : string
}.

(** [{ imports: {}, scopes: {} }] as it fills up. *)
Record CombinedImportMap : Type := {
  imports : Record json;
  scopes : Record json
}.

(** [target[key] = value] on an ordinary object: an own property keeps
    its place and takes the value, a new one goes last. *)
Fixpoint set (target : Record json) (key : string) (value : json) : Record json :=
  match target with
  | [] => [(key, value)]
  | (k, v) :: target' =>
      if String.eqb k key then (k, value) :: target'
      else (k, v) :: set target' key value
  end.

(** [Object.assign(target, source)]: the own enumerable properties of
    [source], in enumeration order, are assigned to [target].  Assigning
    to [__proto__] reaches the setter of [Object.prototype] and leaves the
    own properties as they are; the prototype that the setter installs is
    not followed (after [null] a later [__proto__] would become an own
    property), so what is proved of a target leaves the key [__proto__]
    out. *)
Definition assign_one (target : Record json) (kv : string * json) : Record json :=
  if String.eqb (fst kv) "__proto__" then target
  else set target (fst kv) (snd kv).

Definition Object_assign (target : Record json) (source : json) : Record json :=
  fold_left assign_one (Object_entries source) target.

(** [script.textContent || '{}']; [None] is [null]. *)
Definition scriptText (textContent : option string) : string :=
  match textContent with
  | Some t => if String.eqb t "" then "{}" else t
  | None => "{}"
  end.

(** [new Set<string>().add(x)] *)
Definition Set_add (x : string) (s : list string) : list string :=
  if existsb (String.eqb x) s then s else (s ++ [x])%list.

Section Browser.

(** [JSON.parse]; [None] when it throws. *)
Variable JSON_parse : string -> option json.
(** [new URL(url)]; [None] when it throws. *)
Variable URL_ : string -> option URLParts.

(** The callback of [importMapScripts.forEach]; [None] when it throws.
    [textContent] is [None] for [null]. *)
Definition extractOne (combinedImportMap : CombinedImportMap)
           (textContent : option string) : option CombinedImportMap :=
  match JSON_parse (scriptText textContent) with
  | None => None
  | Some JNull => None               (* a property of null is read *)
  | Some importMapData =>
      let c1 :=
        match prop importMapData "imports" with
        | Some i => if truthy (Some i)
                    then {| imports := Object_assign (imports combinedImportMap) i;
                            scopes := scopes combinedImportMap |}
                    else combinedImportMap
        | None => combinedImportMap
        end in
      let c2 :=
        match prop importMapData "scopes" with
        | Some sc => if truthy (Some sc)
                     then {| imports := imports c1;
                             scopes := Object_assign (scopes c1) sc |}
                     else c1
        | None => c1
        end in
      Some c2
  end.

Fixpoint extractAll (combinedImportMap : CombinedImportMap)
         (scripts : list (option string)) : option CombinedImportMap :=
  match scripts with
  | [] => Some combinedImportMap
  | script :: scripts' =>
      match extractOne combinedImportMap script with
      | Some c => extractAll c scripts'
      | None => None
      end
  end.

(** [extractImportMap()]; [None] is [null]. *)
Definition extractImportMap (importMapScripts : list (option string))
  : option CombinedImportMap :=
  if List.length importMapScripts =? 0 then None
  else extractAll {| imports := []; scopes := [] |} importMapScripts.

(** The callback of [Object.values(importMap.imports).forEach]. *)
Definition addLocalhostOrigin (origins : list string) (url : json) : list string :=
  match url with
  | JString url =>
      if includes url "localhost" then
        match URL_ url with
        | Some urlObj =>
            if String.eqb (hostname urlObj) "localhost"
               || String.eqb (hostname urlObj) "127.0.0.1"
            then Set_add (protocol urlObj ++ "//" ++ host urlObj) origins
            else origins
        | None => origins
        end
      else origins
  | _ => origins
  end.

(** [getLocalhostOrigins(importMap)]; [importMap.imports] is an object
    here, so the first test never returns. *)
Definition getLocalhostOrigins (importMap : CombinedImportMap) : list string :=
  fold_left addLocalhostOrigin (map snd (entries (imports importMap))) [].

(** A call of [fetch(url, { method: 'POST', ..., body: JSON.stringify(importMap) })]. *)
Record Fetch : Type := {
  url : string;
  sent : CombinedImportMap
}.

(** [initImportMapSender()], by the calls of [fetch] it makes, in order. *)
Definition initImportMapSender (isRoot : bool) (postEndpoint : string)
           (locationOrigin : string) (importMapScripts : list (option string))
  : list Fetch :=
  match extractImportMap importMapScripts with
  | None => []
  | Some importMap =>
      let origins := if isRoot then Set_add locationOrigin [] else [] in
      let localhostOrigins := getLocalhostOrigins importMap in
      let origins := fold_left (fun s origin => Set_add origin s)
                               localhostOrigins origins in
      if List.length origins =? 0 then []
      else map (fun origin => {| url := origin ++ postEndpoint; sent := importMap |})
               origins
  end.

End Browser.

(** The value that [JSON.stringify(importMap)] writes out. *)
Definition payload (c : CombinedImportMap) : json :=
  JObject [("imports", JObject (imports c)); ("scopes", JObject (scopes c))].

End Sender.

(** ** Local servers and samples, to state the properties of the sender with *)

Module SenderSpec.
Import JsString JsObject Json Sender.

(** The origin of a development server named in the import map, [URL_]
    being [new URL]. *)
Definition namesLocalServer (URL_ : string -> option URLParts)
           (importMap : CombinedImportMap) (origin : string) : Prop :=
  exists key url urlObj,
    In (key, JString url) (imports importMap) /\
    includes url "localhost" = true /\
    URL_ url = Some urlObj /\
    (hostname urlObj = "localhost" \/ hostname urlObj = "127.0.0.1") /\
    origin = protocol urlObj ++ "//" ++ host urlObj.

(** [new URL] on one address. *)
Definition sampleURL (url : string) : option URLParts :=
  if String.eqb url "http://localhost:4101/x.js"
  then Some {| protocol := "http:"; hostname := "localhost"; host := "localhost:4101" |}
  else None.

Definition sampleMap : CombinedImportMap :=
  {| imports := [("@x", JString "http://localhost:4101/x.js")]; scopes := [] |}.

End SenderSpec.

(* ================================================================== *)
(** * Part II. Properties                                              *)
(* ================================================================== *)

(** ** Strings *)

Module JsStringFacts.
Import JsString.

Lemma get_none_iff (s : string) (i : nat) :
  String.get i s = None <-> String.length s <= i.
Proof.
  revert i; induction s as [|c s IH]; intros [|i]; simpl; split; intros H;
    try reflexivity; try discriminate; try lia.
  - apply IH in H; lia.
  - apply IH; lia.
Qed.

Lemma get_some_lt (s : string) (i : nat) (c : ascii) :
  String.get i s = Some c -> i < String.length s.
Proof.
  intros H. destruct (Nat.lt_ge_cases i (String.length s)) as [L|L]; [exact L|].
  apply get_none_iff in L. congruence.
Qed.

Lemma get_slice_from (s : string) (i q : nat) :
  String.get q (slice_from s i) = String.get (i + q) s.
Proof.
  revert s; induction i as [|i IH]; intros s; simpl.
  - destruct s; reflexivity.
  - destruct s as [|c s]; simpl.
    + destruct q; reflexivity.
    + apply IH.
Qed.

Lemma slice_to_from (s : string) (n : nat) :
  slice_to s n ++ slice_from s n = s.
Proof.
  revert s; induction n as [|n IH]; intros [|c s]; simpl; try reflexivity.
  now rewrite IH.
Qed.

Lemma count_while_get (p : ascii -> bool) (s : string) (q : nat) :
  q < count_while p s -> exists c, String.get q s = Some c /\ p c = true.
Proof.
  revert q; induction s as [|c s IH]; simpl; intros q H; [lia|].
  destruct (p c) eqn:Pc; [|lia].
  destruct q as [|q]; [now exists c|].
  apply IH; lia.
Qed.

Lemma count_while_max (p : ascii -> bool) (s : string) (n : nat) :
  (forall q, q < n -> exists c, String.get q s = Some c /\ p c = true) ->
  n <= count_while p s.
Proof.
  revert s; induction n as [|n IH]; intros s H; [lia|].
  destruct s as [|c s]; simpl.
  - destruct (H 0) as (c & G & _); [lia | discriminate].
  - destruct (H 0) as (c' & G & Pc); [lia|]. simpl in G. injection G as ->.
    rewrite Pc. apply le_n_S, IH. intros q Hq.
    destruct (H (S q)) as (d & G' & Pd); [lia|]. now exists d.
Qed.

End JsStringFacts.

(** ** The matcher finds exactly the matches *)

Module RegexFacts.
Import JsString Regex RegexSpec JsStringFacts.

Lemma Matches_le m s r i j : Matches m s r i j -> i <= j.
Proof. induction 1; lia. Qed.

Lemma run_all_in (p : ascii -> bool) (s : string) (i j : nat) :
  i <= j -> j <= i + count_while p (slice_from s i) -> all_in p s i j.
Proof.
  intros Hij Hj q Hq.
  destruct (count_while_get p (slice_from s i) (q - i)) as (c & G & Pc); [lia|].
  rewrite get_slice_from in G. replace (i + (q - i)) with q in G by lia.
  now exists c.
Qed.

Lemma all_in_run (p : ascii -> bool) (s : string) (i j : nat) :
  i <= j -> all_in p s i j -> j <= i + count_while p (slice_from s i).
Proof.
  intros Hij H.
  assert (j - i <= count_while p (slice_from s i)); [|lia].
  apply count_while_max. intros q Hq. rewrite get_slice_from. apply H. lia.
Qed.

Lemma try_back_some k lo n e :
  try_back k lo n = Some e -> exists j, lo <= j <= lo + n /\ k j = Some e.
Proof.
  induction n as [|n IH]; simpl.
  - destruct (k (lo + 0)) eqn:K; [|discriminate].
    intros [= ->]. exists (lo + 0). split; [lia | exact K].
  - destruct (k (lo + S n)) eqn:K.
    + intros [= ->]. exists (lo + S n). split; [lia | exact K].
    + intros H. destruct (IH H) as (j & Hj & Kj). exists j. split; [lia | exact Kj].
Qed.

Lemma try_back_none k lo n :
  try_back k lo n = None -> forall j, lo <= j <= lo + n -> k j = None.
Proof.
  induction n as [|n IH]; simpl.
  - destruct (k (lo + 0)) eqn:K; [discriminate|].
    intros _ j Hj. replace j with (lo + 0) by lia. exact K.
  - destruct (k (lo + S n)) eqn:K; [discriminate|].
    intros H j Hj. destruct (Nat.eq_dec j (lo + S n)) as [->|Hne]; [exact K|].
    apply IH; [exact H | lia].
Qed.

(** Soundness: a result of the matcher comes from a match of the pattern
    followed by a success of the continuation. *)
Lemma matchR_sound m s r : forall i k e,
  matchR m r s i k = Some e -> exists j, Matches m s r i j /\ k j = Some e.
Proof.
  induction r as [| |a|p|p|p|r IH|r1 IH1 r2 IH2|r1 IH1 r2 IH2];
    intros i k e; simpl.
  - destruct (at_bol m s i) eqn:B; [|discriminate].
    intros K. exists i. split; [now constructor | exact K].
  - destruct (at_eol m s i) eqn:B; [|discriminate].
    intros K. exists i. split; [now constructor | exact K].
  - destruct (String.get i s) as [c|] eqn:G; [|discriminate].
    destruct (Ascii.eqb a c) eqn:E; [|discriminate].
    apply Ascii.eqb_eq in E; subst c.
    intros K. exists (S i). split; [now constructor | exact K].
  - destruct (String.get i s) as [c|] eqn:G; [|discriminate].
    destruct (p c) eqn:Pc; [|discriminate].
    intros K. exists (S i). split; [now apply MCls with c | exact K].
  - intros H. apply try_back_some in H as (j & Hj & K).
    exists j. split; [|exact K].
    apply MStar; [lia | apply run_all_in; lia].
  - destruct (count_while p (slice_from s i)) as [|n] eqn:C; [discriminate|].
    intros H. apply try_back_some in H as (j & Hj & K).
    exists j. split; [|exact K].
    apply MPlus; [lia | apply run_all_in; lia].
  - destruct (matchR m r s i k) as [e'|] eqn:R.
    + intros [= ->]. destruct (IH _ _ _ R) as (j & Mj & K).
      exists j. split; [now apply MOptSome | exact K].
    + intros K. exists i. split; [apply MOptNone | exact K].
  - destruct (matchR m r1 s i k) as [e'|] eqn:R.
    + intros [= ->]. destruct (IH1 _ _ _ R) as (j & Mj & K).
      exists j. split; [now apply MAltL | exact K].
    + intros R2. destruct (IH2 _ _ _ R2) as (j & Mj & K).
      exists j. split; [now apply MAltR | exact K].
  - intros H. destruct (IH1 _ _ _ H) as (j & Mj & K).
    destruct (IH2 _ _ _ K) as (l & Ml & K').
    exists l. split; [now apply MSeq with j | exact K'].
Qed.

(** Completeness: where the pattern has a match after which the
    continuation succeeds, the matcher does not fail. *)
Lemma matchR_complete m s r i j :
  Matches m s r i j ->
  forall k, k j <> None -> matchR m r s i k <> None.
Proof.
  induction 1 as [i B|i B|a i G|p c i G Pc|p i j L A|p i j L A
                  |r i j _ IH|r i|r1 r2 i j _ IH|r1 r2 i j _ IH
                  |r1 r2 i j l _ IH1 _ IH2]; intros k K; simpl.
  - now rewrite B.
  - now rewrite B.
  - now rewrite G, Ascii.eqb_refl.
  - now rewrite G, Pc.
  - intros T. apply K.
    apply (try_back_none _ _ _ T). split; [lia | now apply all_in_run].
  - pose proof (all_in_run p s i j (Nat.lt_le_incl _ _ L) A) as R.
    destruct (count_while p (slice_from s i)) as [|n]; [lia|].
    intros T. apply K. apply (try_back_none _ _ _ T). lia.
  - destruct (matchR m r s i k) eqn:R; [discriminate|].
    now apply IH in R.
  - destruct (matchR m r s i k); [discriminate | exact K].
  - destruct (matchR m r1 s i k) eqn:R; [discriminate|].
    now apply IH in R.
  - destruct (matchR m r1 s i k); [discriminate|]. now apply IH.
  - apply IH1. now apply IH2.
Qed.

Lemma match_at_some m s r i e :
  match_at m r s i = Some e -> Matches m s r i e.
Proof.
  intros H. apply matchR_sound in H as (j & Mj & [= ->]). exact Mj.
Qed.

Lemma match_at_none m s r i :
  match_at m r s i = None -> forall j, ~ Matches m s r i j.
Proof.
  intros H j Mj. apply (matchR_complete _ _ _ _ _ Mj (fun j => Some j)); [discriminate | exact H].
Qed.

Lemma search_some m r s n i p e :
  search m r s n i = Some (p, e) ->
  i <= p < i + n /\ match_at m r s p = Some e /\
  forall q, i <= q < p -> match_at m r s q = None.
Proof.
  revert i; induction n as [|n IH]; intros i; simpl; [discriminate|].
  destruct (match_at m r s i) as [e'|] eqn:E.
  - intros [= <- <-]. split; [lia | split; [exact E | intros; lia]].
  - intros H. apply IH in H as (R & Mp & N).
    split; [lia | split; [exact Mp|]].
    intros q Hq. destruct (Nat.eq_dec q i) as [->|]; [exact E | apply N; lia].
Qed.

Lemma search_none m r s n i :
  search m r s n i = None -> forall q, i <= q < i + n -> match_at m r s q = None.
Proof.
  revert i; induction n as [|n IH]; intros i; simpl; [intros; lia|].
  destruct (match_at m r s i) as [e'|] eqn:E; [discriminate|].
  intros H q Hq. destruct (Nat.eq_dec q i) as [->|]; [exact E | apply (IH _ H); lia].
Qed.

End RegexFacts.

(** ** The sender injector *)

Module InjectorFacts.
Import JsString Regex RegexSpec Injector InjectorSpec JsStringFacts RegexFacts.

Ltac invert_matches :=
  repeat match goal with
         | H : Matches _ _ (Seq _ _) _ _ |- _ => inversion H; subst; clear H
         | H : Matches _ _ (Lit _ _) _ _ |- _ => simpl in H
         | H : Matches _ _ (Chr _) _ _ |- _ => inversion H; subst; clear H
         | H : Matches _ _ (Cls _) _ _ |- _ => inversion H; subst; clear H
         | H : Matches _ _ Bol _ _ |- _ => inversion H; subst; clear H
         | H : Matches _ _ Eol _ _ |- _ => inversion H; subst; clear H
         | H : Matches _ _ (Star _) _ _ |- _ => inversion H; subst; clear H
         | H : Matches _ _ (Plus _) _ _ |- _ => inversion H; subst; clear H
         end.

Lemma prefix_of_gets (t s : string) :
  (forall q, q < String.length t -> String.get q s = String.get q t) ->
  String.prefix t s = true.
Proof.
  revert s; induction t as [|c t IH]; intros s H.
  - destruct s; reflexivity.
  - destruct s as [|d s].
    + specialize (H 0 ltac:(simpl; lia)). discriminate.
    + simpl. pose proof (H 0 ltac:(simpl; lia)) as H0. simpl in H0.
      injection H0 as ->. destruct (ascii_dec c c) as [_|N]; [|congruence].
      apply IH. intros q Hq. apply (H (S q)). simpl; lia.
Qed.

(** What a match of [importRegex] from [p] to [e] is: [p] starts a line;
    white space (line breaks included) runs up to the keyword at [w]; the
    keyword is followed by one white-space code unit and then by one or
    more code units of a single line, up to the end [e] of that line. *)
Lemma import_match_shape (code : string) (p e : nat) :
  Matches true code importRegex p e ->
  at_bol true code p = true /\
  exists w, p <= w /\ all_in is_space code p w /\
            startsWith (slice_from code w) "import" = true /\
            (exists c, String.get (w + 6) code = Some c /\ is_space c = true) /\
            w + 7 < e /\ all_in is_dot code (w + 7) e /\
            at_eol true code e = true.
Proof.
  unfold importRegex. intros H. invert_matches.
  match goal with H : Matches _ _ (Opt _) _ _ |- _ => rename H into HO end.
  match goal with H : at_bol _ _ _ = true |- _ => rename H into HB end.
  split; [exact HB|].
  match goal with H : all_in is_space _ _ ?w |- _ => exists w end.
  split; [assumption|]. split; [assumption|]. split.
  { apply prefix_of_gets. intros q Hq. rewrite get_slice_from. simpl in Hq.
    do 6 (destruct q as [|q]; [rewrite ?Nat.add_0_r, ?Nat.add_succ_r, ?Nat.add_0_r; simpl; assumption|]).
    lia. }
  split.
  { match goal with G : String.get (S (S (S (S (S (S ?w)))))) _ = Some ?c |- _ =>
      exists c; replace (w + 6) with (S (S (S (S (S (S w)))))) by lia; now split end. }
  inversion HO; subst; clear HO; invert_matches.
  - split; [lia|]. split; [|assumption].
    intros q Hq.
    match goal with A : all_in is_dot _ _ ?j |- _ =>
      destruct (Nat.eq_dec q j) as [->|Hne] end.
    + eexists; split; [eassumption | reflexivity].
    + match goal with A : all_in is_dot _ _ _ |- _ => apply A end. lia.
  - split; [lia|]. split; [|assumption].
    intros q Hq. match goal with A : all_in is_dot _ _ _ |- _ => apply A end. lia.
Qed.

Lemma import_match_bounds (code : string) (p e : nat) :
  match_at true importRegex code p = Some e ->
  p < e <= String.length code.
Proof.
  intros H. apply match_at_some, import_match_shape in H
    as (_ & w & Hw & _ & _ & _ & He & _ & E).
  split; [lia|]. unfold at_eol in E.
  destruct (String.get e code) as [c|] eqn:G.
  - apply get_some_lt in G. lia.
  - apply Nat.eqb_eq in E. lia.
Qed.

Lemma exec_import_some (code : string) (from p e : nat) :
  exec true importRegex code from = Some (p, e) ->
  from <= p /\ match_at true importRegex code p = Some e /\
  forall q, from <= q < p -> match_at true importRegex code q = None.
Proof.
  unfold exec. intros H. apply search_some in H as (R & Mp & N).
  split; [lia | split; assumption].
Qed.

Lemma exec_import_none (code : string) (from : nat) :
  exec true importRegex code from = None ->
  forall q, from <= q -> match_at true importRegex code q = None.
Proof.
  unfold exec. intros H q Hq.
  destruct (match_at true importRegex code q) as [e|] eqn:E; [|reflexivity].
  pose proof (import_match_bounds _ _ _ E) as B.
  rewrite (search_none _ _ _ _ _ H q) in E; [discriminate | lia].
Qed.

(** The loop stops because no further match exists, not because its
    fuel ran out; its result is the end of the last match found. *)
Lemma findLast_loop_spec (code : string) :
  forall fuel from last,
    String.length code - from < fuel ->
    let r := findLast_loop fuel code from last in
    (r = last /\ forall q, from <= q -> match_at true importRegex code q = None)
    \/ (exists p e, from <= p /\ r = Z.of_nat e /\
                    match_at true importRegex code p = Some e /\
                    forall q, e <= q -> match_at true importRegex code q = None).
Proof.
  induction fuel as [|fuel IH]; intros from last F; [lia|]. simpl.
  destruct (exec true importRegex code from) as [[p e]|] eqn:X.
  - apply exec_import_some in X as (Hp & Mp & _).
    pose proof (import_match_bounds _ _ _ Mp) as B.
    right. replace (p + (e - p)) with e by lia.
    destruct (IH e (Z.of_nat e)) as [[R N]|(p' & e' & Hp' & R & Mp' & N)]; [lia| |].
    + exists p, e. repeat split; assumption.
    + exists p', e'. repeat split; try assumption; lia.
  - left. split; [reflexivity|]. now apply exec_import_none.
Qed.

(** The two outcomes of [findLastImportStatement]. *)
Lemma findLastImportStatement_spec (code : string) :
  (findLastImportStatement code = (-1)%Z /\
   forall p e, ~ Matches true code importRegex p e)
  \/ (exists p e, findLastImportStatement code = Z.of_nat e /\
                  Matches true code importRegex p e /\
                  e <= String.length code /\
                  forall q e', e <= q -> ~ Matches true code importRegex q e').
Proof.
  unfold findLastImportStatement.
  destruct (findLast_loop_spec code (S (String.length code)) 0 (-1)%Z)
    as [[R N]|(p & e & _ & R & Mp & N)]; [lia| |].
  - left. split; [exact R|]. intros p e. apply match_at_none, N. lia.
  - right. exists p, e. split; [exact R|]. split; [now apply match_at_some|].
    split; [apply (import_match_bounds _ _ _ Mp)|].
    intros q e' Hq. apply match_at_none, N, Hq.
Qed.




End InjectorFacts.

(** ** The identifier resolver *)

Module ResolverFacts.
Import JsString JsObject Resolver ResolverSpec JsStringFacts.

Lemma digits_do_not_end_in_slash (k : string) :
  all_digits k = true -> k <> "" -> endsWith k "/" = false.
Proof.
  induction k as [|c k IH]; intros D N; [congruence|].
  simpl in D. apply andb_true_iff in D as [Dc Dk].
  unfold endsWith. simpl String.length.
  replace (S (String.length k) - 1) with (String.length k) by lia.
  destruct k as [|d k'].
  - simpl. destruct (Ascii.eqb_spec c "/") as [->|_]; [discriminate Dc | reflexivity].
  - specialize (IH Dk ltac:(discriminate)). unfold endsWith in IH.
    simpl String.length in IH.
    replace (S (String.length k') - 1) with (String.length k') in IH by lia.
    simpl in IH. simpl. exact IH.
Qed.

Lemma array_index_not_prefix_key (id k : string) (v : string) :
  is_array_index k = true -> prefix_applies id (k, v) = false.
Proof.
  unfold is_array_index, array_index, prefix_applies. intros H. simpl fst.
  destruct k as [|c rest]; [discriminate|].
  destruct (all_digits (String c rest)) eqn:D; [|discriminate].
  rewrite digits_do_not_end_in_slash; [reflexivity | exact D | discriminate].
Qed.

Lemma insert_by_index_Forall {A} (P : N * (string * A) -> Prop) x l :
  P x -> Forall P l -> Forall P (insert_by_index x l).
Proof.
  intros Px; induction 1 as [|y l Py Fl IH]; simpl.
  - now repeat constructor.
  - destruct (fst x <=? fst y)%N; repeat (constructor; try assumption).
Qed.

Lemma indexed_keys_are_indices {A} (o : Record A) :
  Forall (fun e => is_array_index (fst (snd e)) = true) (indexed o).
Proof.
  induction o as [|[k v] o IH]; simpl; [constructor|].
  destruct (array_index k) eqn:E; [|exact IH].
  apply insert_by_index_Forall; [|exact IH].
  simpl. unfold is_array_index. now rewrite E.
Qed.

Lemma prefix_loop_skips (l1 l2 : list (string * string)) (id : string) :
  Forall (fun kv => prefix_applies id kv = false) l1 ->
  prefix_loop (l1 ++ l2) id = prefix_loop l2 id.
Proof.
  induction 1 as [|[k v] l1 F _ IH]; simpl; [reflexivity|].
  unfold prefix_applies in F; simpl in F. now rewrite F.
Qed.

Lemma prefix_loop_filter (o : Record string) (id : string) :
  prefix_loop (filter (fun kv => negb (is_array_index (fst kv))) o) id
  = prefix_loop o id.
Proof.
  induction o as [|[k v] o IH]; simpl; [reflexivity|].
  destruct (is_array_index k) eqn:E; simpl.
  - pose proof (array_index_not_prefix_key id k v E) as F.
    unfold prefix_applies in F; simpl in F. now rewrite F.
  - now rewrite IH.
Qed.

(** Enumeration order does not matter to the prefix loop: the keys that
    enumeration moves to the front are numerals, which end in no [/]. *)
Lemma prefix_loop_entries (o : Record string) (id : string) :
  prefix_loop (entries o) id = prefix_loop o id.
Proof.
  unfold entries. rewrite prefix_loop_skips; [apply prefix_loop_filter|].
  pose proof (indexed_keys_are_indices o) as F.
  induction F as [|[n [k v]] l H _ IH]; simpl; constructor; [|exact IH].
  now apply array_index_not_prefix_key.
Qed.

Lemma prefix_loop_first (o : Record string) (id : string) :
  prefix_loop o id = first_prefix_match o id.
Proof.
  unfold first_prefix_match.
  induction o as [|[k v] o IH]; simpl; [reflexivity|].
  unfold prefix_applies at 1; simpl fst.
  destruct (endsWith k "/" && startsWith id k); [reflexivity | exact IH].
Qed.

(** C6, as amended.  For a specifier that names no member of
    [Object.prototype]: the resolver returns [imports[specifier]] when that
    exact key exists with a non-empty target; otherwise it returns, for the
    first key in creation order that ends in [/] and is a prefix of the
    specifier, the key's target followed by the remainder of the specifier
    (first match, not longest match); otherwise [null].  With
    [{"@a/": "X/", "@a/b/": "Y/"}], ["@a/b/c"] resolves to ["X/b/c"]. *)
Theorem resolveFromImportMap_exact_then_first_prefix
  (o : Record string) (sc : option (Record (Record string)))
  (ig : option (Record string)) (id : string) :
  inherited id = false ->
  resolveFromImportMap {| imports := Some o; scopes := sc; integrity := ig |} id
  = match get_own o id with
    | Some target => if String.eqb target "" then first_prefix_match o id
                     else VString target
    | None => first_prefix_match o id
    end
  /\ resolveFromImportMap
       {| imports := Some [("@a/", "X/"); ("@a/b/", "Y/")];
          scopes := sc; integrity := ig |} "@a/b/c" = VString "X/b/c".
Proof.
  intros I. split; [|reflexivity].
  unfold resolveFromImportMap, Get. cbn [imports].
  rewrite prefix_loop_entries, prefix_loop_first.
  destruct (get_own o id) as [target|]; simpl.
  - destruct (String.eqb target ""); reflexivity.
  - rewrite I. reflexivity.
Qed.

Lemma resolveFromImportMap_exact_then_first_prefix_witness :
  inherited "@demo/foo.js" = false /\
  resolveFromImportMap
    {| imports := Some [("@a/b", "cd"); ("@demo/", "http://x/")];
       scopes := None; integrity := None |} "@demo/foo.js"
  = VString "http://x/foo.js".
Proof.
  split; [reflexivity|].
  exact (proj1 (resolveFromImportMap_exact_then_first_prefix
                  [("@a/b", "cd"); ("@demo/", "http://x/")] None None
                  "@demo/foo.js" eq_refl)).
Defined.

(** C6 as stated fails: an exact key whose target is the empty string is
    passed over, and a prefix entry answers instead. *)
Lemma exact_key_with_empty_target_is_passed_over :
  get_own [("@a/", "X/"); ("@a/b", "")] "@a/b" = Some "" /\
  resolveFromImportMap
    {| imports := Some [("@a/", "X/"); ("@a/b", "")];
       scopes := None; integrity := None |} "@a/b"
  = VString "X/b" /\
  resolveFromImportMap
    {| imports := Some [("@a/", "X/"); ("@a/b", "")];
       scopes := None; integrity := None |} "@a/b"
  <> VString "".
Proof. split; [reflexivity | split; [reflexivity | discriminate]]. Qed.

(** Accepted specifiers are always marked external, resolved or not. *)
Lemma resolveId_marks_external
  (isBare : string -> bool) (im : ImportMap) (ext : list jsval) (id_ : string) :
  isBare id_ = true ->
  exists r, fst (resolveId isBare im ext id_) = Some r /\ external r = true.
Proof.
  intros B. unfold resolveId. rewrite B. simpl. eexists; split; reflexivity.
Qed.

(** C7, at the failing input.  With [{"@a/b": "http://x/b.js"}] received,
    [resolveId("@a/b")] marks the module external but hands the bundler the
    resolved URL as its identifier, not the bare specifier; the URL is also
    what [externalizedModules] records. *)
Theorem resolveId_returns_resolved_url_not_bare_specifier :
  resolveId (fun id_ => startsWith id_ "@")
            {| imports := Some [("@a/b", "http://x/b.js")];
               scopes := Some []; integrity := None |}
            [] "@a/b"
  = (Some {| id := VString "http://x/b.js"; external := true |},
     [VString "http://x/b.js"])
  /\ VString "http://x/b.js" <> VString "@a/b".
Proof. split; [reflexivity | discriminate]. Qed.

End ResolverFacts.

(** ** The development server side *)

Module ServerFacts.
Import JsString Regex Injector JsObject Json Server ServerSpec JsStringFacts.

(** *** Sorting the keys *)

Lemma insert_sorted_perm (x : string) (l : list string) :
  Permutation (x :: l) (insert_sorted x l).
Proof.
  induction l as [|y l IH]; simpl; [reflexivity|].
  destruct (String.leb x y); [reflexivity|].
  rewrite perm_swap. now constructor.
Qed.

Lemma sort_perm (l : list string) : Permutation l (sort l).
Proof.
  induction l as [|x l IH]; simpl; [constructor|].
  rewrite <- insert_sorted_perm. now constructor.
Qed.

Lemma sort_is_imports_scopes (l : list string) :
  sort l = ["imports"; "scopes"] <-> Permutation l ["imports"; "scopes"].
Proof.
  split.
  - intros H. rewrite <- H. apply sort_perm.
  - intros H. apply Permutation_sym, Permutation_length_2_inv in H as [->| ->];
      reflexivity.
Qed.

Lemma exactly_imports_scopes (l : list string) :
  Permutation l ["imports"; "scopes"] <->
  NoDup l /\ forall k, In k l <-> k = "imports" \/ k = "scopes".
Proof.
  assert (NoDup ["imports"; "scopes"]) as ND.
  { repeat constructor; simpl; intuition discriminate. }
  split.
  - intros P. split.
    + apply (Permutation_NoDup (Permutation_sym P) ND).
    + intros k. split; intros H.
      * apply (Permutation_in _ P) in H. simpl in H. intuition auto.
      * apply (Permutation_in _ (Permutation_sym P)). simpl. intuition auto.
  - intros [N I]. apply NoDup_Permutation; [exact N | exact ND|].
    intros k. rewrite I. simpl. intuition auto.
Qed.

Lemma validateIm_accepts (v : json) :
  validateIm v = inr tt <->
  is_non_null_object v = true /\ sort (Object_keys v) = ["imports"; "scopes"].
Proof.
  unfold validateIm.
  destruct (is_non_null_object v); simpl; [|split; [discriminate | intros [? _]; discriminate]].
  destruct (sort (Object_keys v)) as [|k0 [|k1 [|k2 l]]];
    try (split; [discriminate | intros [_ ?]; discriminate]).
  destruct (String.eqb_spec k0 "imports") as [->|N0]; simpl.
  - destruct (String.eqb_spec k1 "scopes") as [->|N1]; simpl.
    + split; auto.
    + split; [discriminate | intros [_ [= ?]]; congruence].
  - split; [discriminate | intros [_ [= ? ?]]; congruence].
Qed.

(** *** Running the handlers *)

Lemma for_each_logger {A} (level : LogLevel) (f : A -> LogMessage) (l : list A) :
  forall w,
    for_each l (fun x => logger level (f x)) w
    = (Returned tt,
       {| shared := shared w; res := res w; nextCalls := nextCalls w;
          logged := (logged w ++ map (fun x => (level, f x)) l)%list |}).
Proof.
  induction l as [|x l IH]; intros [sh rs nc lg]; simpl.
  - unfold ret. now rewrite app_nil_r.
  - unfold bind, logger. simpl. rewrite IH. simpl.
    now rewrite <- app_assoc.
Qed.

Lemma printable_prefix_all (l : list (string * json)) :
  forallb (fun kv => negb (ToString_throws (snd kv))) l = true ->
  printable_prefix l = l.
Proof.
  induction l as [|kv l IH]; simpl; [reflexivity|].
  destruct (ToString_throws (snd kv)); simpl; [discriminate|].
  intros H. now rewrite IH.
Qed.

(** The loop over the entries: it logs them in order and stops, by a
    [TypeError], at the first value without string conversion. *)
Lemma for_each_entry (l : list (string * json)) :
  forall w,
    for_each l (fun kv => text <- fmt_url (snd kv) ;;
                          logger info (ImportEntry (fst kv) text)) w
    = (if forallb (fun kv => negb (ToString_throws (snd kv))) l
       then Returned tt else Thrown TypeError_,
       {| shared := shared w; res := res w; nextCalls := nextCalls w;
          logged := (logged w
                     ++ map (fun kv => (info, ImportEntry (fst kv) (snd kv)))
                            (printable_prefix l))%list |}).
Proof.
  induction l as [|kv l IH]; intros [sh rs nc lg]; simpl.
  - unfold ret. now rewrite app_nil_r.
  - unfold bind at 1. unfold bind at 1. unfold fmt_url.
    destruct (ToString_throws (snd kv)); simpl.
    + unfold throw. now rewrite app_nil_r.
    + unfold ret at 1. unfold logger at 1. rewrite IH. simpl.
      now rewrite <- app_assoc.
Qed.

(** What the [end] listener does to a request not yet answered. *)
Lemma onEnd_outcome (JSON_parse : string -> option json)
      (origin : option string) (text : string) (s : Shared)
      (lg : list (LogLevel * LogMessage)) :
  onEnd JSON_parse origin text
        {| shared := s; res := freshResponse; nextCalls := 0; logged := lg |}
  = match JSON_parse text with
    | None =>
        (Returned tt,
         {| shared := s; res := sent 400 json_headers invalidImportMapData;
            nextCalls := 0;
            logged := (lg ++ [(error, FailedToParse SyntaxError_)])%list |})
    | Some v =>
        match validateIm v with
        | inl e =>
            (Returned tt,
             {| shared := s; res := sent 400 json_headers invalidImportMapData;
                nextCalls := 0;
                logged := (lg ++ [(error, FailedToParse e)])%list |})
        | inr _ =>
            if logsWithoutThrow v then
              (Returned tt,
               {| shared := {| importMap := v; signaled := true |};
                  res := sent 200 (("Content-Type", "application/json") :: cors_headers)
                           (JSON_stringify
                              (OObject [("success", OBool true);
                                        ("imports", ONat (importCountOf v))]));
                  nextCalls := 0;
                  logged := ((lg ++ [(info, ReceivedImportMap origin (importCountOf v)
                                                              (scopeCountOf v))])
                             ++ loggedEntries v)%list |})
            else
              (Returned tt,
               {| shared := {| importMap := v; signaled := signaled s |};
                  res := sent 400 json_headers invalidImportMapData;
                  nextCalls := 0;
                  logged := (((lg ++ [(info, ReceivedImportMap origin (importCountOf v)
                                                               (scopeCountOf v))])
                              ++ map (fun kv => (info, ImportEntry (fst kv) (snd kv)))
                                     (printable_prefix (importEntries v)))
                             ++ [(error, FailedToParse TypeError_)])%list |})
        end
    end.
Proof.
  unfold onEnd, try_catch, bind at 1.
  destruct (JSON_parse text) as [v|]; [|reflexivity].
  cbn [lift]. unfold ret at 1. unfold bind at 1.
  destruct (validateIm v) as [e|[]]; [reflexivity|].
  cbn [lift]. unfold logsWithoutThrow, loggedEntries, importEntries, importCountOf,
    scopeCountOf.
  unfold ret at 1. unfold bind, getShared, setShared, logger at 1.
  cbn [shared importMap signaled res nextCalls logged].
  destruct (prop v "imports") as [imports|]; [|rewrite app_nil_r; reflexivity].
  destruct (truthy (Some imports)); [|rewrite app_nil_r; reflexivity].
  rewrite for_each_entry. cbn [shared res nextCalls logged].
  destruct (forallb (fun kv => negb (ToString_throws (snd kv))) (Object_entries imports))
    eqn:F.
  - rewrite (printable_prefix_all _ F). reflexivity.
  - reflexivity.
Qed.

(** What a [POST] to the endpoint does, from arrival to response. *)
Lemma receive_post (JSON_parse : string -> option json) (o : PluginOptions)
      (others : Shared -> Shared) (req : Request) (chunks : list string)
      (s : Shared) :
  method req = "POST" ->
  receive JSON_parse o others req chunks (enter s)
  = if isOriginAllowed o (originOf req)
    then onEnd JSON_parse (originOf req) (String.concat "" chunks)
               {| shared := others s; res := freshResponse; nextCalls := 0;
                  logged := [] |}
    else (Returned tt,
          {| shared := s; res := sent 403 json_headers originNotAllowed;
             nextCalls := 0;
             logged := [(warn, RejectedOrigin (originOf req))] |}).
Proof.
  intros Hm. unfold receive, importMapEndpointMiddleware. rewrite Hm. simpl String.eqb.
  destruct (isOriginAllowed o (originOf req)); reflexivity.
Qed.

(** *** The validator (C1) *)

(** C1. [validateIm] accepts a parsed value exactly when it is a non-null
    object whose keys (distinct, as the keys of an object are) are
    [imports] and [scopes] and nothing else.  The values under the two keys
    are not looked at.  A [POST] from an allowed origin whose parsed body
    is rejected is answered 400 with the JSON body
    [{"error":"Invalid import map data"}]. *)
Theorem validateIm_accepts_exactly_imports_and_scopes :
  (forall v : json,
      validateIm v = inr tt <->
      is_non_null_object v = true /\
      NoDup (Object_keys v) /\
      forall k, In k (Object_keys v) <-> k = "imports" \/ k = "scopes")
  /\ (forall iv sv : json,
         validateIm (JObject [("imports", iv); ("scopes", sv)]) = inr tt /\
         validateIm (JObject [("scopes", sv); ("imports", iv)]) = inr tt)
  /\ (forall (JSON_parse : string -> option json) (o : PluginOptions)
             (others : Shared -> Shared) (req : Request) (chunks : list string)
             (s : Shared) (v : json),
         method req = "POST" ->
         isOriginAllowed o (originOf req) = true ->
         JSON_parse (String.concat "" chunks) = Some v ->
         validateIm v <> inr tt ->
         fst (receive JSON_parse o others req chunks (enter s)) = Returned tt /\
         res (snd (receive JSON_parse o others req chunks (enter s)))
         = sent 400 json_headers
                (JSON_stringify (OObject [("error", OString "Invalid import map data")]))).
Proof.
  split; [|split].
  - intros v. rewrite validateIm_accepts, sort_is_imports_scopes,
      exactly_imports_scopes. reflexivity.
  - intros iv sv. split; reflexivity.
  - intros JSON_parse o others req chunks s v Hm Ho Hp Hv.
    rewrite (receive_post _ _ _ _ _ _ Hm), Ho, onEnd_outcome, Hp.
    destruct (validateIm v) as [e|[]]; [split; reflexivity | congruence].
Qed.

Lemma validateIm_accepts_exactly_imports_and_scopes_witness :
  fst (receive (parseTable [(importsOnlyText, JObject [("imports", JObject [])])])
               defaultOptions (fun s => s) (post (Some "http://localhost:5555"))
               [importsOnlyText] (enter initialShared)) = Returned tt /\
  res (snd (receive (parseTable [(importsOnlyText, JObject [("imports", JObject [])])])
                    defaultOptions (fun s => s) (post (Some "http://localhost:5555"))
                    [importsOnlyText] (enter initialShared)))
  = sent 400 json_headers
         (JSON_stringify (OObject [("error", OString "Invalid import map data")])).
Proof.
  apply (proj2 (proj2 validateIm_accepts_exactly_imports_and_scopes)
               (parseTable [(importsOnlyText, JObject [("imports", JObject [])])])
               defaultOptions (fun s => s) (post (Some "http://localhost:5555"))
               [importsOnlyText] initialShared (JObject [("imports", JObject [])]));
    [reflexivity | reflexivity | reflexivity | discriminate].
Defined.

(** *** The admission filter (C2, C10) *)

Lemma in_exceptions (u : string) (l : list string) :
  existsb (String.eqb u) l = true <-> In u l.
Proof.
  rewrite existsb_exists. split.
  - intros (x & I & E). apply String.eqb_eq in E. now subst.
  - intros I. exists u. split; [exact I | apply String.eqb_refl].
Qed.

Lemma shouldBlock_true_iff (o : PluginOptions) (config : ResolvedConfig)
      (s : Shared) (req : Request) :
  shouldBlockJavaScriptRequest o config s req = true <->
  command config = serve /\ method req = "GET" /\ signaled s = false /\
  ~ In (url req) (stockPathExceptions o config).
Proof.
  unfold shouldBlockJavaScriptRequest.
  destruct (command config); cbn [Command_eqb negb];
    [|split; [discriminate | intros [? _]; discriminate]].
  destruct (String.eqb_spec (method req) "GET") as [E|N]; cbn [negb];
    [|split; [discriminate | intros (_ & ? & _); contradiction]].
  destruct (signaled s);
    [split; [discriminate | intros (_ & _ & ? & _); discriminate]|].
  destruct (existsb (String.eqb (url req)) (stockPathExceptions o config)) eqn:X.
  - apply in_exceptions in X. split; [discriminate | intros (_ & _ & _ & ?); contradiction].
  - split; [|reflexivity]. intros _. repeat split; try assumption.
    intros I. apply in_exceptions in I. congruence.
Qed.

(** The decision of the filter.  A request is let through exactly when
    the server is not serving, or the method is not [GET], or the event is
    signaled, or the request URL equals one of the stock exceptions: what
    [joinPaths] makes of the document root, of [index.html], of the client
    runtime and, for a root instance only, of the sender script.  In
    every other case the request must wait. *)
Lemma shouldBlockJavaScriptRequest_passes_exactly_when
  (o : PluginOptions) (config : ResolvedConfig) (s : Shared) (req : Request) :
  (shouldBlockJavaScriptRequest o config s req = false <->
   command config <> serve \/ method req <> "GET" \/ signaled s = true \/
   url req = joinPaths config ["/"] \/
   url req = joinPaths config ["/index.html"] \/
   url req = joinPaths config ["/@vite/client"] \/
   (isRoot o = true /\ url req = joinPaths config [importMapSenderEndpoint o]))
  /\ (shouldBlockJavaScriptRequest o config s req = true <->
      ~ (command config <> serve \/ method req <> "GET" \/ signaled s = true \/
         url req = joinPaths config ["/"] \/
         url req = joinPaths config ["/index.html"] \/
         url req = joinPaths config ["/@vite/client"] \/
         (isRoot o = true /\ url req = joinPaths config [importMapSenderEndpoint o]))).
Proof.
  assert (In (url req) (stockPathExceptions o config) <->
          url req = joinPaths config ["/"] \/
          url req = joinPaths config ["/index.html"] \/
          url req = joinPaths config ["/@vite/client"] \/
          (isRoot o = true /\ url req = joinPaths config [importMapSenderEndpoint o]))
    as Hin.
  { unfold stockPathExceptions. destruct (isRoot o); simpl; intuition (auto; try discriminate). }
  assert (shouldBlockJavaScriptRequest o config s req = true <->
          ~ (command config <> serve \/ method req <> "GET" \/ signaled s = true \/
             In (url req) (stockPathExceptions o config))) as Ht.
  { rewrite shouldBlock_true_iff. split.
    - intros (C & Me & S & X) [H|[H|[H|H]]]; congruence || contradiction.
    - intros H. repeat split.
      + destruct (command config); [reflexivity|]. exfalso. apply H. left. discriminate.
      + destruct (String.eqb_spec (method req) "GET"); [assumption|]. exfalso. apply H. auto.
      + destruct (signaled s); [|reflexivity]. exfalso. apply H. auto.
      + intros I. apply H. auto. }
  split.
  - rewrite <- Hin.
    destruct (shouldBlockJavaScriptRequest o config s req) eqn:B.
    + split; [discriminate|]. intros H. exfalso. apply (proj1 Ht eq_refl). exact H.
    + split; [|reflexivity]. intros _.
      destruct (command config) eqn:C; [|left; discriminate].
      destruct (String.eqb_spec (method req) "GET") as [E|N]; [|auto].
      destruct (signaled s) eqn:S; [auto|].
      right; right; right. apply in_exceptions.
      destruct (existsb (String.eqb (url req)) (stockPathExceptions o config)) eqn:X;
        [reflexivity | exfalso].
      assert (shouldBlockJavaScriptRequest o config s req = true) as B'; [|congruence].
      apply shouldBlock_true_iff. repeat split; try assumption.
      intros I. apply in_exceptions in I. congruence.
  - rewrite Ht, Hin. reflexivity.
Qed.

(** The stock exceptions under a base with a path segment. *)
Example stockPathExceptions_under_app :
  stockPathExceptions defaultOptions {| base := "/app/"; command := serve |}
  = ["/app/index.html"; "/app"; "/app/@vite/client";
     "/app/__collagejs-import-map-sender.js"].
Proof. vm_compute. reflexivity. Qed.

(** C2, at the failing input.  Under the default base [/], [joinPaths]
    drops the empty first part and with it the leading slash of every
    stock exception; request URLs begin with a slash, so none of them is
    an exception, and while serving, with the event unsignaled, a [GET] of
    [/index.html], of the document root [/] and of the client runtime
    [/@vite/client] must each wait. *)
Theorem stock_exceptions_match_no_request_under_default_base :
  stockPathExceptions defaultOptions {| base := "/"; command := serve |}
  = ["index.html"; ""; "@vite/client"; "__collagejs-import-map-sender.js"]
  /\ shouldBlockJavaScriptRequest defaultOptions {| base := "/"; command := serve |}
       initialShared (get_ "/index.html") = true
  /\ shouldBlockJavaScriptRequest defaultOptions {| base := "/"; command := serve |}
       initialShared (get_ "/") = true
  /\ shouldBlockJavaScriptRequest defaultOptions {| base := "/"; command := serve |}
       initialShared (get_ "/@vite/client") = true
  /\ shouldBlockJavaScriptRequest defaultOptions {| base := "/"; command := serve |}
       initialShared (get_ "/__collagejs-import-map-sender.js") = true.
Proof. repeat split; vm_compute; reflexivity. Qed.

(** C10 as stated fails: under the base [/app/] the root [/app] is an
    exception, and [/app] followed by [/index.html] is let through. *)
Lemma suffix_can_spell_another_exception :
  In "/app" (stockPathExceptions defaultOptions {| base := "/app/"; command := serve |}) /\
  shouldBlockJavaScriptRequest defaultOptions {| base := "/app/"; command := serve |}
    initialShared (get_ ("/app" ++ "/index.html")) = false.
Proof. split; [vm_compute; auto | vm_compute; reflexivity]. Qed.

(** C10, as amended.  The filter compares the raw request URL with the
    exceptions by equality: while serving, for a [GET] with the event
    unsignaled, an exception followed by a suffix is blocked whenever the
    result is not itself one of the exceptions.  So [index.html] with a
    query string is blocked. *)
Theorem suffixed_exception_is_blocked
  (o : PluginOptions) (config : ResolvedConfig) (s : Shared) (req : Request)
  (exception suffix : string) :
  command config = serve ->
  method req = "GET" ->
  signaled s = false ->
  In exception (stockPathExceptions o config) ->
  url req = exception ++ suffix ->
  ~ In (exception ++ suffix) (stockPathExceptions o config) ->
  shouldBlockJavaScriptRequest o config s req = true.
Proof.
  intros C Me S _ U N. apply shouldBlock_true_iff.
  repeat split; try assumption. now rewrite U.
Qed.

Lemma suffixed_exception_is_blocked_witness :
  shouldBlockJavaScriptRequest defaultOptions {| base := "/app/"; command := serve |}
    initialShared (get_ ("/app/index.html" ++ "?v=1")) = true.
Proof.
  apply (suffixed_exception_is_blocked defaultOptions
           {| base := "/app/"; command := serve |} initialShared
           (get_ ("/app/index.html" ++ "?v=1")) "/app/index.html" "?v=1");
    try reflexivity.
  - vm_compute. auto.
  - vm_compute. intros [H|[H|[H|[H|[]]]]]; discriminate H.
Defined.

(** *** The blocking middleware (C3) *)

(** C3. A request that the filter decided to block proceeds whichever
    way the wait ends: the middleware returns normally, calls [next]
    once and writes nothing to the response.  When the wait times out,
    and when it throws, all that is logged is warnings. *)
Theorem blocked_request_proceeds_after_timeout
  (o : PluginOptions) (config : ResolvedConfig) (sus : Suspension)
  (req : Request) (s : Shared) :
  shouldBlockJavaScriptRequest o config s req = true ->
  fst (blockingMiddleware o config sus req (enter s)) = Returned tt /\
  nextCalls (snd (blockingMiddleware o config sus req (enter s))) = 1 /\
  res (snd (blockingMiddleware o config sus req (enter s))) = freshResponse /\
  logged (snd (blockingMiddleware o config sus req (enter s)))
  = match settled sus with
    | inr TimedOut =>
        [(warn, BlockingRequest (url req)); (warn, TimeoutWaiting (url req))]
    | inl e =>
        [(warn, BlockingRequest (url req)); (warn, ErrorWaiting (url req) e)]
    | inr NotTimedOut =>
        [(warn, BlockingRequest (url req)); (info, ImportMapReceived (url req))]
    end.
Proof.
  intros B.
  unfold blockingMiddleware, waitAsync, suspend, try_catch, bind, getShared,
    setShared, logger, next, lift, ret, throw.
  destruct sus as [oth [e|[|]]]; cbn; rewrite B; cbn; repeat split; reflexivity.
Qed.

Lemma blocked_request_proceeds_after_timeout_witness :
  nextCalls (snd (blockingMiddleware defaultOptions
                    {| base := "/app/"; command := serve |}
                    {| others := fun s => s; settled := inr TimedOut |}
                    (get_ "/app/src/main.ts") (enter initialShared))) = 1.
Proof.
  apply (blocked_request_proceeds_after_timeout defaultOptions
           {| base := "/app/"; command := serve |}
           {| others := fun s => s; settled := inr TimedOut |}
           (get_ "/app/src/main.ts") initialShared).
  vm_compute. reflexivity.
Defined.

(** *** The origin check (C4) *)

Lemma isOriginAllowed_false_iff (o : PluginOptions) (origin : option string) :
  isOriginAllowed o origin = false <->
  match origin with
  | None => True
  | Some origin =>
      origin = "" \/
      (includes origin "localhost" = false /\
       includes origin "127.0.0.1" = false /\
       includes origin "[::1]" = false /\
       forall allowed, In allowed (allowedOrigins o) ->
                       includes origin allowed = false)
  end.
Proof.
  unfold isOriginAllowed. destruct origin as [origin|]; [|tauto].
  destruct (String.eqb_spec origin "") as [E|N]; [tauto|].
  destruct (includes origin "localhost");
    [split; [discriminate | intros [?|(? & _)]; congruence]|].
  destruct (includes origin "127.0.0.1");
    [split; [discriminate | intros [?|(_ & ? & _)]; congruence]|].
  destruct (includes origin "[::1]");
    [split; [discriminate | intros [?|(_ & _ & ? & _)]; congruence]|].
  cbn [orb]. split.
  - intros X. right. repeat split. intros allowed I.
    destruct (includes origin allowed) eqn:Inc; [|reflexivity].
    assert (existsb (fun allowed => includes origin allowed) (allowedOrigins o) = true)
      by (apply existsb_exists; eauto).
    congruence.
  - intros [?|(_ & _ & _ & A)]; [contradiction|].
    destruct (existsb (fun allowed => includes origin allowed) (allowedOrigins o)) eqn:X;
      [|reflexivity].
    apply existsb_exists in X as (allowed & I & Inc). rewrite (A _ I) in Inc. discriminate.
Qed.

(** C4, at the failing input.  The origin [http://localhost.evil.example]
    has a host that is not a loopback address and the allow-list is empty,
    so the [POST] is to be answered 403; the origin check looks for the
    text [localhost] anywhere in the origin, lets the request in, and its
    import map is stored and the event signaled. *)
Theorem origin_containing_localhost_is_accepted :
  is_loopback_address "http://localhost.evil.example" = false /\
  allowedOrigins defaultOptions = [] /\
  res (snd (receive (parseTable [(emptyMapText, emptyMap)]) defaultOptions
                    (fun s => s) (post (Some "http://localhost.evil.example"))
                    [emptyMapText] (enter initialShared)))
  = sent 200 (("Content-Type", "application/json") :: cors_headers)
         (JSON_stringify (OObject [("success", OBool true); ("imports", ONat 0)])) /\
  shared (snd (receive (parseTable [(emptyMapText, emptyMap)]) defaultOptions
                       (fun s => s) (post (Some "http://localhost.evil.example"))
                       [emptyMapText] (enter initialShared)))
  = {| importMap := emptyMap; signaled := true |}.
Proof. repeat split; vm_compute; reflexivity. Qed.

(** The decision of the origin check.  A [POST] is answered 403 with the
    JSON body [{"error":"Origin not allowed"}] exactly when the origin (the
    [Origin] header, else [Referer]) is absent or empty, or its text
    contains none of [localhost], [127.0.0.1] and [[::1]] and no entry of
    the allow-list. *)
Lemma post_is_rejected_403_exactly_when
  (JSON_parse : string -> option json) (o : PluginOptions)
  (others : Shared -> Shared) (req : Request) (chunks : list string)
  (s : Shared) :
  method req = "POST" ->
  (res (snd (receive JSON_parse o others req chunks (enter s)))
   = sent 403 json_headers
          (JSON_stringify (OObject [("error", OString "Origin not allowed")]))
   <->
   match originOf req with
   | None => True
   | Some origin =>
       origin = "" \/
       (includes origin "localhost" = false /\
        includes origin "127.0.0.1" = false /\
        includes origin "[::1]" = false /\
        forall allowed, In allowed (allowedOrigins o) ->
                        includes origin allowed = false)
   end)
  /\ originOf req
     = match headers_origin req with
       | Some origin => if String.eqb origin "" then headers_referer req
                        else Some origin
       | None => headers_referer req
       end.
Proof.
  intros Hm. split; [|reflexivity].
  rewrite <- isOriginAllowed_false_iff, (receive_post _ _ _ _ _ _ Hm).
  destruct (isOriginAllowed o (originOf req)).
  - rewrite onEnd_outcome. split; [|discriminate].
    destruct (JSON_parse (String.concat "" chunks)) as [v|];
      [destruct (validateIm v) as [e|u]; [|destruct (logsWithoutThrow v)]|];
      cbn [snd res]; discriminate.
  - split; reflexivity.
Qed.

Lemma post_is_rejected_403_exactly_when_witness :
  res (snd (receive (parseTable [(emptyMapText, emptyMap)]) defaultOptions
                    (fun s => s) (post (Some "http://evil.example"))
                    [emptyMapText] (enter initialShared)))
  = sent 403 json_headers
         (JSON_stringify (OObject [("error", OString "Origin not allowed")])).
Proof.
  apply (proj1 (post_is_rejected_403_exactly_when
                  (parseTable [(emptyMapText, emptyMap)]) defaultOptions
                  (fun s => s) (post (Some "http://evil.example"))
                  [emptyMapText] initialShared eq_refl)).
  right. repeat split; try reflexivity. intros allowed [].
Defined.

(** *** All or nothing (C5) *)

(** What a [POST] leaves behind, case by case.  Rejected for its origin
    (403), the shared state is untouched; failing to parse or to validate
    (400), it is what the other requests made of it while the body was
    read; parsed, validated and logged (200), the parsed value is stored
    whole and the event is signaled; parsed and validated but with a value
    under [imports] that has no string conversion, the answer is 400, the
    parsed value is stored all the same and the event is left as it was. *)
Lemma post_outcome_by_case
  (JSON_parse : string -> option json) (o : PluginOptions)
  (others : Shared -> Shared) (req : Request) (chunks : list string)
  (s : Shared) :
  method req = "POST" ->
  let w := snd (receive JSON_parse o others req chunks (enter s)) in
  (isOriginAllowed o (originOf req) = false ->
   res w = sent 403 json_headers originNotAllowed /\ shared w = s)
  /\ (isOriginAllowed o (originOf req) = true ->
      JSON_parse (String.concat "" chunks) = None ->
      res w = sent 400 json_headers invalidImportMapData /\ shared w = others s)
  /\ (forall v e,
         isOriginAllowed o (originOf req) = true ->
         JSON_parse (String.concat "" chunks) = Some v ->
         validateIm v = inl e ->
         res w = sent 400 json_headers invalidImportMapData /\ shared w = others s)
  /\ (forall v,
         isOriginAllowed o (originOf req) = true ->
         JSON_parse (String.concat "" chunks) = Some v ->
         validateIm v = inr tt ->
         logsWithoutThrow v = true ->
         head (res w) = Some (200, ("Content-Type", "application/json") :: cors_headers) /\
         shared w = {| importMap := v; signaled := true |})
  /\ (forall v,
         isOriginAllowed o (originOf req) = true ->
         JSON_parse (String.concat "" chunks) = Some v ->
         validateIm v = inr tt ->
         logsWithoutThrow v = false ->
         res w = sent 400 json_headers invalidImportMapData /\
         shared w = {| importMap := v; signaled := signaled (others s) |}).
Proof.
  intros Hm w. subst w. rewrite (receive_post _ _ _ _ _ _ Hm).
  destruct (isOriginAllowed o (originOf req)).
  - rewrite onEnd_outcome.
    destruct (JSON_parse (String.concat "" chunks)) as [v|].
    + destruct (validateIm v) as [e|[]] eqn:V.
      * cbn [snd res shared head].
        repeat split; intros; try discriminate; try congruence.
      * destruct (logsWithoutThrow v) eqn:L; cbn [snd res shared head].
        -- split; [intros; discriminate|]. split; [intros; discriminate|].
           split; [intros; congruence|].
           split; [intros v' _ [= <-] _ _; split; reflexivity|].
           intros v' _ [= <-] _ L'. congruence.
        -- split; [intros; discriminate|]. split; [intros; discriminate|].
           split; [intros; congruence|].
           split; [intros v' _ [= <-] _ L'; congruence|].
           intros v' _ [= <-] _ _. split; reflexivity.
    + cbn [snd res shared head].
      repeat split; intros; try discriminate; try congruence.
  - cbn [snd res shared head].
    repeat split; intros; try discriminate; try congruence.
Qed.

(** C5, at the failing input.  The body
    [{"imports":{"a":{"toString":1}},"scopes":{}}], posted from an allowed
    origin, parses and passes [validateIm]; the listener stores it, and
    then the log line for the entry [a], whose value has no string
    conversion, throws.  The [POST] fails, answered 400 with
    [{"error":"Invalid import map data"}], and yet the stored mapping has
    been replaced by the posted one; the event is not signaled. *)
Theorem post_failing_after_the_store_replaces_the_map :
  validateIm unprintableMap = inr tt /\
  importMap initialShared <> unprintableMap /\
  receive (parseTable [(unprintableText, unprintableMap)]) defaultOptions
          (fun s => s) (post (Some "http://localhost:5555")) [unprintableText]
          (enter initialShared)
  = (Returned tt,
     {| shared := {| importMap := unprintableMap; signaled := false |};
        res := sent 400 json_headers invalidImportMapData;
        nextCalls := 0;
        logged := [(info, ReceivedImportMap (Some "http://localhost:5555") 1 0);
                   (error, FailedToParse TypeError_)] |}).
Proof.
  split; [reflexivity|]. split; [discriminate|].
  vm_compute. reflexivity.
Qed.

(** *** The sender script middleware (C9) *)

(** C9, at the failing input.  When reading the sender script fails, the
    head (200, [application/javascript]) is already written; writing the
    500 head throws, the middleware ends by that exception, and no body,
    so no JSON error body, is sent. *)
Theorem sender_read_failure_sends_no_500
  (o : PluginOptions) (config : ResolvedConfig) (e : JsError) (s : Shared) :
  senderMiddleware o config (inl e) (enter s)
  = (Thrown ERR_HTTP_HEADERS_SENT,
     {| shared := s;
        res := {| head := Some (200, [("Content-Type", "application/javascript");
                                      ("Access-Control-Allow-Origin", "*")]);
                  body := None |};
        nextCalls := 0;
        logged := [(error, FailedToReadSender e)] |}).
Proof. reflexivity. Qed.

(** When the read succeeds the script is sent under the head
    (200, [application/javascript]), its closing call given the two
    arguments. *)
Lemma sender_read_success (o : PluginOptions) (config : ResolvedConfig)
      (script : string) (s : Shared) :
  head (res (snd (senderMiddleware o config (inr script) (enter s))))
  = Some (200, [("Content-Type", "application/javascript");
                ("Access-Control-Allow-Origin", "*")])
  /\ senderMiddleware defaultOptions {| base := "/app/"; command := serve |}
       (inr "(function (isRoot, postEndpoint) { run(); })();") (enter s)
     = (Returned tt,
        {| shared := s;
           res := sent 200 [("Content-Type", "application/javascript");
                            ("Access-Control-Allow-Origin", "*")]
                    "(function (isRoot, postEndpoint) { run(); })(true, '/app/__current_import_map');";
           nextCalls := 0; logged := [] |}).
Proof. split; [reflexivity | vm_compute; reflexivity]. Qed.

End ServerFacts.

(** ** More on strings *)

Module StringMoreFacts.
Import JsString JsStringFacts PathSpec Server.

Lemma string_ext (a b : string) :
  (forall q, String.get q a = String.get q b) -> a = b.
Proof.
  revert b; induction a as [|c a IH]; intros [|d b] H; try reflexivity.
  - specialize (H 0). discriminate.
  - specialize (H 0). discriminate.
  - pose proof (H 0) as H0. simpl in H0. injection H0 as ->.
    f_equal. apply IH. intros q. apply (H (S q)).
Qed.

Lemma slice_from_0 (s : string) : slice_from s 0 = s.
Proof. destruct s; reflexivity. Qed.

Lemma slice_to_0 (s : string) : slice_to s 0 = "".
Proof. destruct s; reflexivity. Qed.

Lemma app_empty_r (s : string) : s ++ "" = s.
Proof. induction s as [|c s IH]; simpl; congruence. Qed.

Lemma length_app (a b : string) :
  String.length (a ++ b) = String.length a + String.length b.
Proof. induction a as [|c a IH]; simpl; [reflexivity | now rewrite IH]. Qed.

Lemma length_slice_from (s : string) (n : nat) :
  String.length (slice_from s n) = String.length s - n.
Proof.
  revert s; induction n as [|n IH]; intros [|c s]; simpl; try reflexivity.
  apply IH.
Qed.

Lemma length_slice_to_min (s : string) (n : nat) :
  String.length (slice_to s n) = Nat.min n (String.length s).
Proof.
  revert s; induction n as [|n IH]; intros [|c s]; simpl; try reflexivity.
  now rewrite IH.
Qed.

Lemma get_slice_to (s : string) (n q : nat) :
  String.get q (slice_to s n) = if q <? n then String.get q s else None.
Proof.
  revert s q; induction n as [|n IH]; intros [|c s] [|q]; simpl; try reflexivity.
  - destruct (S q <? S n); reflexivity.
  - rewrite IH. reflexivity.
Qed.

Lemma get_app (a b : string) (q : nat) :
  String.get q (a ++ b)
  = if q <? String.length a then String.get q a
    else String.get (q - String.length a) b.
Proof.
  revert q; induction a as [|c a IH]; intros q; simpl.
  - now rewrite Nat.sub_0_r.
  - destruct q as [|q]; [reflexivity|]. rewrite IH. reflexivity.
Qed.

Lemma length_slashes (n : nat) : String.length (slashes n) = n.
Proof. induction n; simpl; congruence. Qed.

Lemma get_slashes (n q : nat) :
  String.get q (slashes n) = if q <? n then Some "/"%char else None.
Proof.
  revert q; induction n as [|n IH]; intros [|q]; simpl; try reflexivity.
  rewrite IH. reflexivity.
Qed.

Lemma is_slash_true (c : ascii) : is_slash c = true <-> c = "/"%char.
Proof. unfold is_slash. apply Ascii.eqb_eq. Qed.

Lemma slice_from_length (s : string) (n : nat) :
  String.length s <= n -> slice_from s n = "".
Proof.
  intros H. apply string_ext. intros q. rewrite get_slice_from.
  rewrite (proj2 (get_none_iff s (n + q))) by lia. destruct q; reflexivity.
Qed.

(** The code units [a..b) of [s]. *)
Lemma slice_split (s : string) (a b : nat) :
  a <= b ->
  slice_from s a = slice_to (slice_from s a) (b - a) ++ slice_from s b.
Proof.
  intros H. rewrite <- (slice_to_from (slice_from s a) (b - a)) at 1.
  f_equal. apply string_ext. intros q. rewrite !get_slice_from.
  f_equal. lia.
Qed.

Lemma endsWith_slash_iff (x : string) :
  endsWith x "/" = true <->
  exists n, String.length x = S n /\ String.get n x = Some "/"%char.
Proof.
  unfold endsWith. simpl String.length. split.
  - intros H. apply andb_true_iff in H as [L E].
    apply Nat.leb_le in L. apply String.eqb_eq in E.
    destruct (String.length x) as [|n] eqn:Len; [lia|]. exists n. split; [reflexivity|].
    replace (S n - 1) with n in E by lia.
    pose proof (get_slice_from x n 0) as G. rewrite E, Nat.add_0_r in G.
    simpl in G. now rewrite <- G.
  - intros (n & Len & G). rewrite Len. simpl. replace (n - 0) with n by lia.
    apply String.eqb_eq. apply string_ext. intros q. rewrite get_slice_from.
    destruct q as [|q]; simpl.
    + now rewrite Nat.add_0_r.
    + rewrite (proj2 (get_none_iff x (n + S q))) by lia. destruct q; reflexivity.
Qed.

Lemma endsWith_slash_false (x : string) :
  (forall n, String.length x = S n -> String.get n x <> Some "/"%char) ->
  endsWith x "/" = false.
Proof.
  intros H. destruct (endsWith x "/") eqn:E; [|reflexivity].
  apply endsWith_slash_iff in E as (n & L & G). now apply H in L.
Qed.

Lemma startsWith_slash_iff (x : string) :
  startsWith x "/" = true <-> String.get 0 x = Some "/"%char.
Proof.
  unfold startsWith. destruct x as [|c x]; [split; discriminate|].
  change (String.prefix "/" (String c x))
    with (if ascii_dec "/" c then String.prefix "" x else false).
  cbn [String.get].
  destruct (ascii_dec "/" c) as [<-|N].
  - destruct x; split; reflexivity.
  - split; [discriminate | intros [= E]; congruence].
Qed.

End StringMoreFacts.

(** ** The slashes that [joinPaths] takes off *)

Module SlashFacts.
Import JsString Regex RegexSpec Injector Server PathSpec.
Import JsStringFacts RegexFacts StringMoreFacts.

Lemma at_eol_false (s : string) (j : nat) :
  at_eol false s j = true <-> j = String.length s.
Proof.
  unfold at_eol. destruct (String.get j s) as [c|] eqn:G; simpl.
  - split; [discriminate|]. intros ->.
    apply get_some_lt in G. lia.
  - apply Nat.eqb_eq.
Qed.

Lemma at_bol_false (s : string) (i : nat) : at_bol false s i = true <-> i = 0.
Proof. destruct i; simpl; split; (reflexivity || discriminate). Qed.

Lemma all_in_slashes (s : string) (i j : nat) :
  i <= j -> all_in is_slash s i j ->
  slice_to (slice_from s i) (j - i) = slashes (j - i).
Proof.
  intros L A. apply string_ext. intros q.
  rewrite get_slice_to, get_slashes, get_slice_from.
  destruct (q <? j - i) eqn:Q; [|reflexivity].
  apply Nat.ltb_lt in Q. destruct (A (i + q)) as (c & G & S); [lia|].
  apply is_slash_true in S. now subst.
Qed.

Lemma all_in_extend_left (s : string) (i j : nat) :
  String.get i s = Some "/"%char -> all_in is_slash s (S i) j ->
  all_in is_slash s i j.
Proof.
  intros G A q Hq. destruct (Nat.eq_dec q i) as [->|N].
  - exists "/"%char. split; [exact G | reflexivity].
  - apply A. lia.
Qed.

(** *** [/\/+$/g] *)

Lemma trailing_match (s : string) (i e : nat) :
  Matches false s trailingSlashes i e <->
  i < e /\ all_in is_slash s i e /\ e = String.length s.
Proof.
  unfold trailingSlashes. split.
  - intros H. inversion H as [| | | | | | | | | |r1 r2 i' j l M1 M2]; subst.
    inversion M1; subst. inversion M2 as [|j' E| | | | | | | | |]; subst.
    apply at_eol_false in E. auto.
  - intros (L & A & ->). apply MSeq with (String.length s).
    + now apply MPlus.
    + apply MEol. now apply at_eol_false.
Qed.

Lemma remove_all_at_end (r : re) (fuel : nat) (s : string) :
  (forall i e, match_at false r s i = Some e -> i < String.length s) ->
  remove_all fuel false r s (String.length s) = "".
Proof.
  intros B. destruct fuel as [|fuel]; simpl.
  - apply slice_from_length. lia.
  - unfold exec. replace (S (String.length s) - String.length s) with 1 by lia.
    simpl. destruct (match_at false r s (String.length s)) as [e|] eqn:M.
    + apply B in M. lia.
    + apply slice_from_length. lia.
Qed.

Lemma trailing_match_at (s : string) (i e : nat) :
  match_at false trailingSlashes s i = Some e ->
  i < String.length s /\ e = String.length s /\ all_in is_slash s i e.
Proof.
  intros M. apply match_at_some, trailing_match in M as (L & A & E).
  repeat split; try assumption. lia.
Qed.

(** The replacement of [/\/+$/g] by nothing takes the slashes off the end:
    what is left ends in no slash, and followed by slashes it is [s]. *)
Lemma strip_trailing_slashes (s : string) :
  endsWith (replace_all_empty false trailingSlashes s) "/" = false /\
  exists n, s = replace_all_empty false trailingSlashes s ++ slashes n.
Proof.
  unfold replace_all_empty. simpl remove_all.
  destruct (exec false trailingSlashes s 0) as [[i e]|] eqn:X.
  - unfold exec in X. apply search_some in X as (_ & M & N).
    destruct (trailing_match_at _ _ _ M) as (Li & -> & A).
    assert ((String.length s =? i) = false) as -> by (apply Nat.eqb_neq; lia).
    rewrite remove_all_at_end
      by (intros i' e' M'; apply (trailing_match_at _ _ _ M')).
    rewrite Nat.sub_0_r, slice_from_0, app_empty_r.
    split.
    + apply endsWith_slash_false. intros n Ln G.
      rewrite length_slice_to_min in Ln. rewrite get_slice_to in G.
      assert (i = S n) as -> by lia.
      rewrite (proj2 (Nat.ltb_lt n (S n))) in G by lia.
      assert (match_at false trailingSlashes s n = None) as Nn by (apply N; lia).
      apply (match_at_none _ _ _ _ Nn (String.length s)).
      apply trailing_match. repeat split; [lia|].
      now apply all_in_extend_left.
    + exists (String.length s - i).
      rewrite <- (all_in_slashes s i (String.length s)) by (lia || assumption).
      rewrite <- (slice_to_from s i) at 1. f_equal.
      rewrite <- (slice_to_from (slice_from s i) (String.length s - i)) at 1.
      rewrite (slice_from_length (slice_from s i)); [|rewrite length_slice_from; lia].
      now rewrite app_empty_r.
  - rewrite slice_from_0. split.
    + apply endsWith_slash_false. intros n Ln G.
      unfold exec in X.
      assert (match_at false trailingSlashes s n = None) as Nn
          by (apply (search_none _ _ _ _ _ X); lia).
      apply (match_at_none _ _ _ _ Nn (String.length s)).
      apply trailing_match. repeat split; [lia|].
      apply all_in_extend_left; [exact G|]. intros q Hq. lia.
    + exists 0. simpl. now rewrite app_empty_r.
Qed.

(** *** [/^\/+|\/+$/g] *)

Lemma edge_match (s : string) (i e : nat) :
  Matches false s edgeSlashes i e <->
  (i = 0 /\ 0 < e /\ all_in is_slash s 0 e) \/
  (i < e /\ all_in is_slash s i e /\ e = String.length s).
Proof.
  unfold edgeSlashes. split.
  - intros H. inversion H as [| | | | | | | |r1 r2 i' j M|r1 r2 i' j M|]; subst.
    + inversion M as [| | | | | | | | | |r1 r2 i' j l M1 M2]; subst.
      inversion M1 as [i' B| | | | | | | | | |]; subst. apply at_bol_false in B. subst.
      inversion M2; subst. left. auto.
    + apply trailing_match in M. right. exact M.
  - intros [(-> & L & A)|H].
    + apply MAltL. apply MSeq with 0; [now apply MBol | now apply MPlus].
    + apply MAltR. now apply trailing_match.
Qed.

Lemma edge_match_at (s : string) (i e : nat) :
  match_at false edgeSlashes s i = Some e -> i < String.length s.
Proof.
  intros M. apply match_at_some, edge_match in M as [(-> & L & A)|(L & A & E)].
  - destruct (A 0) as (c & G & _); [lia|]. now apply get_some_lt in G.
  - lia.
Qed.

Lemma count_while_le (p : ascii -> bool) (s : string) :
  count_while p s <= String.length s.
Proof. induction s as [|c s IH]; simpl; [lia|]. destruct (p c); lia. Qed.

Lemma count_while_stop (p : ascii -> bool) (s : string) (c : ascii) :
  String.get (count_while p s) s = Some c -> p c = false.
Proof.
  induction s as [|d s IH]; simpl; [discriminate|].
  destruct (p d) eqn:P; simpl; [exact IH|]. now intros [= <-].
Qed.

Lemma try_back_greedy (lo n : nat) : try_back (fun j => Some j) lo n = Some (lo + n).
Proof. destruct n; reflexivity. Qed.

(** After the slashes at the start are gone: from an index that holds no
    slash, the replacement keeps the text up to the slashes at the end. *)
Lemma edge_rest (s : string) (from fuel : nat) :
  from <= String.length s ->
  String.get from s <> Some "/"%char ->
  0 < fuel ->
  endsWith (remove_all fuel false edgeSlashes s from) "/" = false /\
  startsWith (remove_all fuel false edgeSlashes s from) "/" = false /\
  exists b, slice_from s from = remove_all fuel false edgeSlashes s from ++ slashes b.
Proof.
  intros Lf Gf F. destruct fuel as [|fuel]; [lia|]. simpl remove_all.
  destruct (exec false edgeSlashes s from) as [[i e]|] eqn:X.
  - unfold exec in X. apply search_some in X as (Ri & M & N).
    pose proof (match_at_some _ _ _ _ _ M) as MM.
    apply edge_match in MM as [(-> & L & A)|(L & A & ->)].
    + exfalso. assert (from = 0) as -> by lia.
      destruct (A 0) as (c & G & S); [lia|]. apply is_slash_true in S. congruence.
    + assert (from < i) as Lt.
      { destruct (Nat.eq_dec i from) as [->|]; [|lia]. exfalso.
        destruct (A from) as (c & G & S); [lia|]. apply is_slash_true in S. congruence. }
      assert ((String.length s =? i) = false) as -> by (apply Nat.eqb_neq; lia).
      rewrite remove_all_at_end by (intros i' e'; apply edge_match_at).
      rewrite app_empty_r. repeat split.
      * apply endsWith_slash_false. intros n Ln G.
        rewrite length_slice_to_min, length_slice_from in Ln.
        rewrite get_slice_to, get_slice_from in G.
        assert (i - from = S n) as Ei by lia. rewrite Ei in G.
        rewrite (proj2 (Nat.ltb_lt n (S n))) in G by lia.
        assert (match_at false edgeSlashes s (from + n) = None) as Nn by (apply N; lia).
        apply (match_at_none _ _ _ _ Nn (String.length s)).
        apply edge_match. right. repeat split; [lia|].
        apply all_in_extend_left; [exact G|].
        replace (S (from + n)) with i by lia. exact A.
      * destruct (startsWith _ "/") eqn:SW; [|reflexivity]. exfalso.
        apply startsWith_slash_iff in SW.
        rewrite get_slice_to, get_slice_from in SW.
        rewrite (proj2 (Nat.ltb_lt 0 (i - from))) in SW by lia.
        rewrite Nat.add_0_r in SW. contradiction.
      * exists (String.length s - i).
        rewrite <- (all_in_slashes s i (String.length s)) by (lia || assumption).
        rewrite (slice_split s from i) at 1 by lia. f_equal.
        rewrite <- (slice_to_from (slice_from s i) (String.length s - i)) at 1.
        rewrite (slice_from_length (slice_from s i)); [|rewrite length_slice_from; lia].
        now rewrite app_empty_r.
  - repeat split.
    + apply endsWith_slash_false. intros n Ln G.
      rewrite length_slice_from in Ln. rewrite get_slice_from in G.
      unfold exec in X.
      assert (match_at false edgeSlashes s (from + n) = None) as Nn
          by (apply (search_none _ _ _ _ _ X); lia).
      apply (match_at_none _ _ _ _ Nn (String.length s)).
      apply edge_match. right. repeat split; [lia|].
      apply all_in_extend_left; [exact G|]. intros q Hq. lia.
    + destruct (startsWith _ "/") eqn:SW; [|reflexivity]. exfalso.
      apply startsWith_slash_iff in SW. rewrite get_slice_from, Nat.add_0_r in SW.
      contradiction.
    + exists 0. simpl. now rewrite app_empty_r.
Qed.

(** The replacement of [/^\/+|\/+$/g] by nothing takes the slashes off
    both ends: what is left neither begins nor ends with a slash, and
    between slashes it is [s]. *)
Lemma strip_edge_slashes (s : string) :
  endsWith (replace_all_empty false edgeSlashes s) "/" = false /\
  startsWith (replace_all_empty false edgeSlashes s) "/" = false /\
  exists a b, s = slashes a ++ replace_all_empty false edgeSlashes s ++ slashes b.
Proof.
  unfold replace_all_empty.
  destruct (count_while is_slash s) as [|k] eqn:C.
  - assert (String.get 0 s <> Some "/"%char) as G0.
    { intros G. pose proof (count_while_stop is_slash s "/"%char) as S.
      rewrite C in S. specialize (S G). discriminate. }
    destruct (edge_rest s 0 (S (String.length s))) as (E & SW & b & Hb);
      [lia | exact G0 | lia |].
    split; [exact E|]. split; [exact SW|]. exists 0, b. simpl.
    now rewrite slice_from_0 in Hb.
  - assert (match_at false edgeSlashes s 0 = Some (S k)) as M.
    { unfold match_at, edgeSlashes. simpl. rewrite slice_from_0, C.
      now rewrite try_back_greedy. }
    pose proof (count_while_le is_slash s) as Le. rewrite C in Le.
    simpl remove_all. unfold exec. rewrite Nat.sub_0_r. simpl search. rewrite M.
    rewrite slice_to_0. simpl append. simpl Nat.eqb.
    destruct (edge_rest s (S k) (String.length s)) as (E & SW & b & Hb); [lia | | lia |].
    { intros G. pose proof (count_while_stop is_slash s "/"%char) as S.
      rewrite C in S. specialize (S G). discriminate. }
    split; [exact E|]. split; [exact SW|]. exists (S k), b.
    rewrite <- Hb. rewrite <- (slice_to_from s (S k)) at 1. f_equal.
    pose proof (all_in_slashes s 0 (S k)) as A.
    rewrite Nat.sub_0_r, slice_from_0 in A. apply A; [lia|].
    apply run_all_in; [lia|]. rewrite slice_from_0, C. lia.
Qed.

(** X1. The two replacements of [joinPaths] take off slashes and nothing
    else: [/\/+$/g] leaves a text that ends in no slash and that, followed
    by slashes, is the part; [/^\/+|\/+$/g] leaves a text that neither
    begins nor ends with a slash and that, between slashes, is the part. *)
Theorem joinPaths_replacements_strip_slashes (part : string) :
  (endsWith (replace_all_empty false trailingSlashes part) "/" = false /\
   exists n, part = replace_all_empty false trailingSlashes part ++ slashes n)
  /\
  (endsWith (replace_all_empty false edgeSlashes part) "/" = false /\
   startsWith (replace_all_empty false edgeSlashes part) "/" = false /\
   exists a b, part = slashes a ++ replace_all_empty false edgeSlashes part ++ slashes b).
Proof.
  split.
  - destruct (strip_trailing_slashes part) as (E & n & Hn). split; [exact E|].
    now exists n.
  - destruct (strip_edge_slashes part) as (E & S & a & b & H).
    split; [exact E|]. split; [exact S|]. now exists a, b.
Qed.

End SlashFacts.

(** ** [joinPaths] and the stock exceptions *)

Module JoinPathsFacts.
Import JsString Regex RegexSpec Injector Server ServerSpec PathSpec.
Import JsStringFacts RegexFacts StringMoreFacts SlashFacts ServerFacts.

Lemma map_index_rest {A B : Type} (f : A -> nat -> B) (g : A -> B) (l : list A) :
  forall k, (forall x j, 0 < j -> f x j = g x) -> 0 < k ->
            map_index f l k = map g l.
Proof.
  induction l as [|x l IH]; intros k H K; simpl; [reflexivity|].
  rewrite H by exact K. f_equal. apply IH; [exact H | lia].
Qed.

(** [joinPaths] by its parts: the base without its trailing slashes, each
    path without the slashes at its ends, the empty ones dropped, a slash
    between the others. *)
Lemma joinPaths_parts (config : ResolvedConfig) (paths : list string) :
  joinPaths config paths
  = String.concat "/"
      (filter nonEmpty (stripTrailing (base config) :: map stripEdges paths)).
Proof.
  unfold joinPaths. simpl map_index. f_equal. f_equal. f_equal.
  apply map_index_rest; [|lia].
  intros x j J. destruct j; [lia | reflexivity].
Qed.

Lemma nonEmpty_true (x : string) : nonEmpty x = true <-> x <> "".
Proof.
  unfold nonEmpty. destruct x; simpl; split; congruence || discriminate || auto.
Qed.

Lemma endsWith_slash_app (a b : string) :
  b <> "" -> endsWith b "/" = false -> endsWith (a ++ b) "/" = false.
Proof.
  intros Nb Eb. apply endsWith_slash_false. intros n Ln G.
  rewrite length_app in Ln. rewrite get_app in G.
  assert (0 < String.length b) by (destruct b; [congruence | simpl; lia]).
  destruct (n <? String.length a) eqn:Q; [apply Nat.ltb_lt in Q; lia|].
  assert (endsWith b "/" = true); [|congruence].
  apply endsWith_slash_iff. exists (n - String.length a). split; [lia | exact G].
Qed.

Lemma concat_nonempty (l : list string) (x : string) :
  x <> "" -> String.concat "/" (x :: l) <> "".
Proof.
  intros N. destruct x as [|c x]; [congruence|].
  destruct l; simpl; discriminate.
Qed.

Lemma concat_ends_in_no_slash (l : list string) :
  Forall (fun x => x <> "" /\ endsWith x "/" = false) l ->
  endsWith (String.concat "/" l) "/" = false.
Proof.
  induction 1 as [|x l [Nx Ex] F IH]; [reflexivity|].
  destruct l as [|y l]; [exact Ex|].
  change (String.concat "/" (x :: y :: l))
    with (x ++ "/" ++ String.concat "/" (y :: l)).
  assert (String.concat "/" (y :: l) <> "") as Nc.
  { apply concat_nonempty. inversion F as [|? ? [Ny _] _]. exact Ny. }
  apply endsWith_slash_app; [discriminate|].
  now apply (endsWith_slash_app "/").
Qed.

Lemma filter_parts_Forall (P : string -> Prop) (l : list string) :
  Forall P l -> Forall (fun x => x <> "" /\ P x) (filter nonEmpty l).
Proof.
  induction 1 as [|x l Px _ IH]; simpl; [constructor|].
  destruct (nonEmpty x) eqn:N; [|exact IH].
  constructor; [|exact IH]. split; [now apply nonEmpty_true | exact Px].
Qed.

Lemma joined_parts_end_in_no_slash (config : ResolvedConfig) (paths : list string) :
  Forall (fun x => x <> "" /\ endsWith x "/" = false)
         (filter nonEmpty (stripTrailing (base config) :: map stripEdges paths)).
Proof.
  apply filter_parts_Forall. constructor.
  - apply strip_trailing_slashes.
  - apply Forall_forall. intros x I. apply in_map_iff in I as (p & <- & _).
    apply strip_edge_slashes.
Qed.

(** X2. [joinPaths] never returns a path that ends in a slash. *)
Theorem joinPaths_ends_in_no_slash (config : ResolvedConfig) (paths : list string) :
  endsWith (joinPaths config paths) "/" = false.
Proof.
  rewrite joinPaths_parts. apply concat_ends_in_no_slash.
  apply joined_parts_end_in_no_slash.
Qed.

Lemma stock_exception_is_joined (o : PluginOptions) (config : ResolvedConfig)
      (u : string) :
  In u (stockPathExceptions o config) -> exists paths, u = joinPaths config paths.
Proof.
  unfold stockPathExceptions. intros I. apply in_app_or in I as [I|I].
  - simpl in I. destruct I as [<-|[<-|[<-|[]]]]; eexists; reflexivity.
  - destruct (isRoot o); simpl in I; [|contradiction].
    destruct I as [<-|[]]. eexists; reflexivity.
Qed.

(** X3. While the server waits for the import map, a [GET] of a URL that
    ends in a slash, the document root among them, is never let through
    by a stock exception. *)
Theorem url_ending_in_slash_must_wait
  (o : PluginOptions) (config : ResolvedConfig) (s : Shared) (req : Request) :
  command config = serve ->
  method req = "GET" ->
  signaled s = false ->
  endsWith (url req) "/" = true ->
  shouldBlockJavaScriptRequest o config s req = true.
Proof.
  intros C M S E. apply shouldBlock_true_iff. repeat split; try assumption.
  intros I. apply stock_exception_is_joined in I as (paths & U).
  rewrite U, joinPaths_parts in E.
  rewrite concat_ends_in_no_slash in E by apply joined_parts_end_in_no_slash.
  discriminate.
Qed.

Lemma url_ending_in_slash_must_wait_witness :
  shouldBlockJavaScriptRequest defaultOptions {| base := "/app/"; command := serve |}
    initialShared (get_ "/app/") = true.
Proof.
  apply (url_ending_in_slash_must_wait defaultOptions
           {| base := "/app/"; command := serve |} initialShared (get_ "/app/"));
    reflexivity.
Defined.

Lemma slashes_have_no_other_start (r : string) (k n : nat) :
  r ++ slashes k = slashes n -> endsWith r "/" = false -> r = "".
Proof.
  intros E F. destruct (String.length r) as [|m] eqn:L.
  - destruct r; [reflexivity | discriminate].
  - exfalso. assert (endsWith r "/" = true); [|congruence].
    apply endsWith_slash_iff. exists m. split; [exact L|].
    pose proof (get_app r (slashes k) m) as G.
    rewrite E, L, get_slashes in G. rewrite (proj2 (Nat.ltb_lt m (S m))) in G by lia.
    assert (String.length (r ++ slashes k) = String.length (slashes n)) as Len
        by now rewrite E.
    rewrite length_app, !length_slashes in Len.
    rewrite (proj2 (Nat.ltb_lt m n)) in G by lia. now symmetry.
Qed.

Lemma concat_starts_with_no_slash (l : list string) :
  Forall (fun x => x <> "" /\ startsWith x "/" = false) l ->
  startsWith (String.concat "/" l) "/" = false.
Proof.
  intros F. destruct F as [|x l [Nx Sx] F]; [reflexivity|].
  destruct (startsWith (String.concat "/" (x :: l)) "/") eqn:SW; [|reflexivity].
  apply startsWith_slash_iff in SW.
  assert (String.get 0 (String.concat "/" (x :: l)) = String.get 0 x) as G.
  { destruct x as [|c x]; [congruence|]. destruct l; reflexivity. }
  rewrite G in SW. apply startsWith_slash_iff in SW. congruence.
Qed.

Lemma joined_under_slash_base (config : ResolvedConfig) (paths : list string)
      (n : nat) :
  trim (base config) = slashes n ->
  joinPaths config paths = String.concat "/" (filter nonEmpty (map stripEdges paths)) /\
  Forall (fun x => x <> "" /\ startsWith x "/" = false)
         (filter nonEmpty (map stripEdges paths)).
Proof.
  intros B. rewrite joinPaths_parts.
  assert (stripTrailing (base config) = "") as ->.
  { unfold stripTrailing. rewrite B.
    destruct (strip_trailing_slashes (slashes n)) as (E & k & Hk).
    apply (slashes_have_no_other_start _ k n); [now symmetry | exact E]. }
  split; [reflexivity|].
  apply filter_parts_Forall. apply Forall_forall. intros x I.
  apply in_map_iff in I as (p & <- & _). apply strip_edge_slashes.
Qed.

(** X4. When the base is nothing but slashes, as the default [/] is,
    [joinPaths] returns a path that begins with no slash. *)
Theorem joinPaths_under_slash_base_begins_with_no_slash
  (config : ResolvedConfig) (paths : list string) (n : nat) :
  trim (base config) = slashes n ->
  startsWith (joinPaths config paths) "/" = false.
Proof.
  intros B. destruct (joined_under_slash_base config paths n B) as [-> F].
  now apply concat_starts_with_no_slash.
Qed.

Lemma joinPaths_under_slash_base_begins_with_no_slash_witness :
  startsWith (joinPaths {| base := "/"; command := serve |} ["/__current_import_map"])
             "/" = false.
Proof.
  apply (joinPaths_under_slash_base_begins_with_no_slash
           {| base := "/"; command := serve |} ["/__current_import_map"] 1).
  reflexivity.
Defined.

(** X5. Under a base that is nothing but slashes no stock exception
    applies to a request: every [GET] of a URL that begins with a slash
    must wait for the import map. *)
Theorem no_exception_applies_under_slash_base
  (o : PluginOptions) (config : ResolvedConfig) (s : Shared) (req : Request)
  (n : nat) :
  trim (base config) = slashes n ->
  command config = serve ->
  method req = "GET" ->
  signaled s = false ->
  startsWith (url req) "/" = true ->
  shouldBlockJavaScriptRequest o config s req = true.
Proof.
  intros B C M S E. apply shouldBlock_true_iff. repeat split; try assumption.
  intros I. apply stock_exception_is_joined in I as (paths & U).
  destruct (joined_under_slash_base config paths n B) as [J F].
  rewrite U, J, (concat_starts_with_no_slash _ F) in E.
  discriminate.
Qed.

Lemma no_exception_applies_under_slash_base_witness :
  shouldBlockJavaScriptRequest defaultOptions {| base := "/"; command := serve |}
    initialShared (get_ "/__collagejs-import-map-sender.js") = true.
Proof.
  apply (no_exception_applies_under_slash_base defaultOptions
           {| base := "/"; command := serve |} initialShared
           (get_ "/__collagejs-import-map-sender.js") 1); reflexivity.
Defined.

End JoinPathsFacts.

(** ** Build-time externals *)

Module ExternalsFacts.
Import JsString Regex Injector JsObject Externals ExternalsSpec.

Lemma array_test (l : list (string + RegExp)) (source : string)
      (importer : option string) (isResolved : bool) :
  array_includes l source || array_some_RegExp l source
  = applies (OptArray l) source importer isResolved.
Proof.
  unfold array_includes, array_some_RegExp. simpl.
  induction l as [|[s|r] l IH]; simpl; [reflexivity| |].
  - rewrite <- IH. now rewrite orb_assoc.
  - rewrite <- IH. rewrite orb_assoc, (orb_comm _ (test r source)), <- orb_assoc.
    reflexivity.
Qed.

Lemma merged_cons (opt : ExternalOption) (options : list ExternalOption)
      (source : string) (importer : option string) (isResolved : bool) :
  merged (opt :: options) source importer isResolved
  = applies opt source importer isResolved
    || merged options source importer isResolved.
Proof.
  destruct opt as [s|r|l|f]; simpl.
  - destruct (String.eqb source s); reflexivity.
  - destruct (test r source); reflexivity.
  - change (existsb _ l) with (applies (OptArray l) source importer isResolved).
    rewrite <- array_test.
    destruct (array_includes l source || array_some_RegExp l source); reflexivity.
  - destruct (f source importer isResolved); reflexivity.
Qed.

(** X6. The merged function answers [true] exactly when one of the merged
    options applies to the module: a string equal to it, a [RegExp] that
    tests it, an array holding it or holding a [RegExp] that tests it, a
    function that answers [true] for the same three arguments. *)
Theorem merged_true_iff (options : list ExternalOption) (source : string)
        (importer : option string) (isResolved : bool) :
  merged options source importer isResolved = true <->
  exists opt, In opt options /\ applies opt source importer isResolved = true.
Proof.
  induction options as [|opt options IH].
  - simpl. split; [discriminate | intros (? & [] & _)].
  - rewrite merged_cons, orb_true_iff, IH. split.
    + intros [A|(x & I & A)]; [exists opt | exists x]; simpl; auto.
    + intros (x & [<-|I] & A); [left | right; exists x]; auto.
Qed.

Lemma merged_app (a b : list ExternalOption) (source : string)
      (importer : option string) (isResolved : bool) :
  merged (a ++ b)%list source importer isResolved
  = merged a source importer isResolved || merged b source importer isResolved.
Proof.
  induction a as [|opt a IH]; [reflexivity|].
  change ((opt :: a) ++ b)%list with (opt :: (a ++ b))%list.
  now rewrite !merged_cons, IH, orb_assoc.
Qed.

(** X7. Merging is flat: a merged function given as an option, with more
    options after it, answers as all the options merged at once. *)
Theorem merged_of_merged (a b : list ExternalOption) (source : string)
        (importer : option string) (isResolved : bool) :
  applies (mergeExternalOptions (mergeExternalOptions a :: b))
          source importer isResolved
  = applies (mergeExternalOptions (a ++ b)%list) source importer isResolved.
Proof.
  unfold mergeExternalOptions. cbn [applies].
  rewrite merged_cons, merged_app. reflexivity.
Qed.

(** The example of the merger: a string and [/^b/]. *)
Example merged_string_and_RegExp :
  let m := merged [OptString "a"; OptRegExp (regExp false (Seq Bol (Chr "b")))] in
  m "a" None false = true /\ m "bxyz" None false = true /\ m "c" None false = false.
Proof. repeat split; vm_compute; reflexivity. Qed.

Section ConfigFacts.
Variable Other : Type.

(** X8. In a build with externals given, the hook leaves [external] set to
    an option that applies exactly when the option configured before (if
    there was one, not the empty string) or the plug-in's externals apply;
    nothing else in the configuration changes. *)
Theorem configHook_adds_externals
  (externals : ExternalOption) (config : UserConfig Other) :
  truthy (Some externals) = true ->
  exists opt,
    configured Other (configHook Other (Some externals) config Injector.build) = Some opt /\
    (forall source importer isResolved,
        applies opt source importer isResolved
        = match configured Other config with
          | Some existing =>
              if truthy (Some existing)
              then applies existing source importer isResolved
                   || applies externals source importer isResolved
              else applies externals source importer isResolved
          | None => applies externals source importer isResolved
          end) /\
    configOther Other (configHook Other (Some externals) config Injector.build)
    = configOther Other config /\
    (forall b, build Other config = Some b ->
       exists b', build Other (configHook Other (Some externals) config Injector.build) = Some b' /\
                  buildOther Other b' = buildOther Other b /\
                  forall r, rollupOptions Other b = Some r ->
                    exists r', rollupOptions Other b' = Some r' /\
                               rollupOther Other r' = rollupOther Other r).
Proof.
  intros T. unfold configHook. rewrite T. cbn [Command_eqb negb orb].
  unfold configured.
  destruct config as [[[[[[existing|] ro]|] bo]|] co]; cbn -[truthy applies mergeExternalOptions].
  - destruct (truthy (Some existing)) eqn:TE; cbn -[truthy applies mergeExternalOptions].
    + eexists. split; [reflexivity|]. split.
      { intros. unfold mergeExternalOptions. cbn [applies].
        rewrite !merged_cons. cbn [merged]. now rewrite orb_false_r. }
      split; [reflexivity|]. intros b [= <-]. eexists. split; [reflexivity|].
      split; [reflexivity|]. intros r [= <-]. eexists. split; reflexivity.
    + eexists. split; [reflexivity|]. split; [reflexivity|].
      split; [reflexivity|]. intros b [= <-]. eexists. split; [reflexivity|].
      split; [reflexivity|]. intros r [= <-]. eexists. split; reflexivity.
  - eexists. split; [reflexivity|]. split; [reflexivity|].
    split; [reflexivity|]. intros b [= <-]. eexists. split; [reflexivity|].
    split; [reflexivity|]. intros r [= <-]. eexists. split; reflexivity.
  - eexists. split; [reflexivity|]. split; [reflexivity|].
    split; [reflexivity|]. intros b [= <-]. eexists. split; [reflexivity|].
    split; [reflexivity|]. intros r [=].
  - eexists. split; [reflexivity|]. split; [reflexivity|].
    split; [reflexivity|]. intros b [=].
Qed.

(** X9. Outside a build, and with no externals given (the empty string
    counts as none), the hook leaves the configuration as it is. *)
Theorem configHook_leaves_config
  (externals : option ExternalOption) (config : UserConfig Other)
  (command : Command) :
  command = serve \/ externals = None \/ externals = Some (OptString "") ->
  configHook Other externals config command = config.
Proof.
  unfold configHook. intros [->|[->| ->]]; [reflexivity | |];
    destruct command; reflexivity.
Qed.

End ConfigFacts.

Lemma configHook_adds_externals_witness :
  exists opt,
    configured nat
      (configHook nat (Some (OptString "@my/dep"))
         {| build := Some {| rollupOptions := Some {| external := Some (OptString "vite");
                                                      rollupOther := [] |};
                             buildOther := [("outDir", 1)] |};
            configOther := [] |} Injector.build) = Some opt /\
    applies opt "vite" None false = true /\
    applies opt "@my/dep" None false = true /\
    applies opt "rollup" None false = false.
Proof.
  destruct (configHook_adds_externals nat (OptString "@my/dep")
              {| build := Some {| rollupOptions := Some {| external := Some (OptString "vite");
                                                           rollupOther := [] |};
                                  buildOther := [("outDir", 1)] |};
                 configOther := [] |} eq_refl) as (opt & C & A & _).
  exists opt. split; [exact C|]. rewrite !A. repeat split; reflexivity.
Defined.

Lemma configHook_leaves_config_witness :
  configHook nat (Some (OptString "@my/dep"))
    {| build := None; configOther := [] |} serve
  = {| build := None; configOther := [] |}.
Proof. apply configHook_leaves_config. left. reflexivity. Defined.

End ExternalsFacts.

(** ** More on the endpoint and the blocking middleware *)

Module ServerMoreFacts.
Import JsString Regex RegexSpec Injector JsObject Json Server ServerSpec PathSpec.
Import JsStringFacts RegexFacts StringMoreFacts SlashFacts ServerFacts.

(** *** Methods other than [POST] *)

(** X10. Only a [POST] can reach the stored mapping: any other request to
    the endpoint is answered at once, [OPTIONS] by 200 with the CORS
    headers and no body, every other method by 405 with [Allow: POST,
    OPTIONS], and the mapping and the event stay as they were. *)
Theorem other_methods_change_nothing
  (JSON_parse : string -> option json) (o : PluginOptions)
  (others : Shared -> Shared) (req : Request) (chunks : list string)
  (s : Shared) :
  method req <> "POST" ->
  receive JSON_parse o others req chunks (enter s)
  = (Returned tt,
     {| shared := s;
        res := if String.eqb (method req) "OPTIONS"
               then sent 200 cors_headers ""
               else sent 405 [("Content-Type", "application/json");
                              ("Allow", "POST, OPTIONS")]
                         (JSON_stringify (OObject [("error", OString "Method not allowed")]));
        nextCalls := 0; logged := [] |}).
Proof.
  intros N. unfold receive, importMapEndpointMiddleware.
  destruct (String.eqb_spec (method req) "POST") as [E|_]; [contradiction|].
  destruct (String.eqb (method req) "OPTIONS"); reflexivity.
Qed.

Lemma other_methods_change_nothing_witness :
  receive (parseTable []) defaultOptions (fun s => s)
          {| method := "PUT"; url := "/__current_import_map";
             headers_origin := Some "http://localhost:5555"; headers_referer := None |}
          [emptyMapText] (enter initialShared)
  = (Returned tt,
     {| shared := initialShared;
        res := sent 405 [("Content-Type", "application/json");
                         ("Allow", "POST, OPTIONS")]
                 (JSON_stringify (OObject [("error", OString "Method not allowed")]));
        nextCalls := 0; logged := [] |}).
Proof.
  apply (other_methods_change_nothing (parseTable []) defaultOptions (fun s => s)
           {| method := "PUT"; url := "/__current_import_map";
              headers_origin := Some "http://localhost:5555";
              headers_referer := None |}
           [emptyMapText] initialShared).
  discriminate.
Defined.

(** *** The event is a latch *)

Lemma onEnd_keeps_signal (JSON_parse : string -> option json)
      (origin : option string) (text : string) (s : Shared) :
  signaled s = true ->
  signaled (shared (snd (onEnd JSON_parse origin text
                           {| shared := s; res := freshResponse; nextCalls := 0;
                              logged := [] |}))) = true.
Proof.
  intros S. rewrite onEnd_outcome.
  destruct (JSON_parse text) as [v|];
    [destruct (validateIm v) as [e|u]; [|destruct (logsWithoutThrow v)]|];
    cbn [snd shared signaled]; auto.
Qed.

(** X11. No request unsignals the event: if it is signaled when a request
    arrives, and the requests served meanwhile leave it signaled, it is
    signaled when the request is done, for the endpoint, for the blocking
    middleware and for the sender script middleware alike. *)
Theorem signaled_stays_signaled
  (JSON_parse : string -> option json) (o : PluginOptions)
  (config : ResolvedConfig) (sus : Suspension) (req : Request)
  (chunks : list string) (file : JsError + string) (s : Shared) :
  signaled s = true ->
  (forall x, signaled x = true -> signaled (others sus x) = true) ->
  signaled (shared (snd (receive JSON_parse o (others sus) req chunks (enter s)))) = true /\
  signaled (shared (snd (blockingMiddleware o config sus req (enter s)))) = true /\
  signaled (shared (snd (senderMiddleware o config file (enter s)))) = true.
Proof.
  intros S K. split; [|split].
  - unfold receive, importMapEndpointMiddleware.
    destruct (String.eqb (method req) "POST").
    + destruct (isOriginAllowed o (originOf req)); [|exact S].
      apply onEnd_keeps_signal, K, S.
    + destruct (String.eqb (method req) "OPTIONS"); exact S.
  - unfold blockingMiddleware, shouldBlockJavaScriptRequest, bind at 1, getShared.
    cbn [enter shared]. rewrite S.
    destruct (negb (Command_eqb (command config) serve)); [exact S|].
    destruct (negb (String.eqb (method req) "GET")); exact S.
  - unfold senderMiddleware, writeHead, try_catch, bind, lift, logger, end_, throw, ret.
    destruct file as [e|script]; exact S.
Qed.

Lemma signaled_stays_signaled_witness :
  signaled (shared (snd (receive (parseTable []) defaultOptions (fun s => s)
                           (post (Some "http://localhost:5555")) ["{"]
                           (enter {| importMap := emptyMap; signaled := true |}))))
  = true.
Proof.
  apply (signaled_stays_signaled (parseTable []) defaultOptions
           {| base := "/"; command := serve |}
           {| others := fun s => s; settled := inr TimedOut |}
           (post (Some "http://localhost:5555")) ["{"] (inl SyntaxError_)
           {| importMap := emptyMap; signaled := true |}).
  - reflexivity.
  - intros x H. exact H.
Defined.

(** *** Requests that need not wait *)

(** A request the filter does not block goes straight on: [next] is
    called once, nothing is logged, nothing is awaited and the response
    is not touched. *)
Lemma unblocked_request_passes_at_once
  (o : PluginOptions) (config : ResolvedConfig) (sus : Suspension)
  (req : Request) (s : Shared) :
  shouldBlockJavaScriptRequest o config s req = false ->
  blockingMiddleware o config sus req (enter s)
  = (Returned tt,
     {| shared := s; res := freshResponse; nextCalls := 1; logged := [] |}).
Proof.
  intros B. unfold blockingMiddleware, bind, getShared. cbn [enter shared].
  rewrite B. reflexivity.
Qed.

(** X12. Once a valid import map has been received, no request waits any
    more: after a [POST] from an allowed origin whose body parses and
    validates, and whose values under [imports] all have a string
    conversion (so that the listener reaches [signal]), the blocking
    middleware passes every request at once. *)
Theorem nothing_waits_after_a_valid_post
  (JSON_parse : string -> option json) (o : PluginOptions)
  (config : ResolvedConfig) (others : Shared -> Shared) (post_ : Request)
  (chunks : list string) (s : Shared) (v : json)
  (sus : Suspension) (req : Request) :
  method post_ = "POST" ->
  isOriginAllowed o (originOf post_) = true ->
  JSON_parse (String.concat "" chunks) = Some v ->
  validateIm v = inr tt ->
  logsWithoutThrow v = true ->
  blockingMiddleware o config sus req
    (enter (shared (snd (receive JSON_parse o others post_ chunks (enter s)))))
  = (Returned tt,
     {| shared := {| importMap := v; signaled := true |};
        res := freshResponse; nextCalls := 1; logged := [] |}).
Proof.
  intros M A P V L.
  rewrite (receive_post _ _ _ _ _ _ M), A, onEnd_outcome, P, V, L. cbn [snd shared].
  apply unblocked_request_passes_at_once.
  unfold shouldBlockJavaScriptRequest. cbn [signaled].
  destruct (negb (Command_eqb (command config) serve)); [reflexivity|].
  destruct (negb (String.eqb (method req) "GET")); reflexivity.
Qed.

Lemma nothing_waits_after_a_valid_post_witness :
  blockingMiddleware defaultOptions {| base := "/app/"; command := serve |}
    {| others := fun s => s; settled := inr TimedOut |} (get_ "/app/src/main.ts")
    (enter (shared (snd (receive (parseTable [(emptyMapText, emptyMap)]) defaultOptions
                           (fun s => s) (post (Some "http://localhost:5555"))
                           [emptyMapText] (enter initialShared)))))
  = (Returned tt,
     {| shared := {| importMap := emptyMap; signaled := true |};
        res := freshResponse; nextCalls := 1; logged := [] |}).
Proof.
  apply (nothing_waits_after_a_valid_post (parseTable [(emptyMapText, emptyMap)])
           defaultOptions {| base := "/app/"; command := serve |} (fun s => s)
           (post (Some "http://localhost:5555")) [emptyMapText] initialShared emptyMap
           {| others := fun s => s; settled := inr TimedOut |} (get_ "/app/src/main.ts"));
    reflexivity.
Defined.

(** *** Origins *)

Lemma prefix_app (x b : string) : String.prefix x (x ++ b) = true.
Proof.
  induction x as [|c x IH]; simpl.
  - destruct b; reflexivity.
  - destruct (ascii_dec c c); [exact IH | congruence].
Qed.

Lemma includes_prefix (s sub : string) :
  String.prefix sub s = true -> includes s sub = true.
Proof. intros H. destruct s; cbn [includes]; rewrite H; reflexivity. Qed.

Lemma includes_cons (c : ascii) (s sub : string) :
  includes s sub = true -> includes (String c s) sub = true.
Proof. intros H. cbn [includes]. rewrite H. apply orb_true_r. Qed.

Lemma includes_app (a x b : string) : includes (a ++ x ++ b) x = true.
Proof.
  induction a as [|c a IH].
  - change ("" ++ x ++ b) with (x ++ b). apply includes_prefix, prefix_app.
  - change (String c a ++ x ++ b) with (String c (a ++ x ++ b)).
    apply includes_cons, IH.
Qed.

Lemma includes_empty (s : string) : includes s "" = true.
Proof. destruct s; reflexivity. Qed.

(** X13. Any origin whose text holds [localhost], [127.0.0.1] or [[::1]]
    anywhere, in the host or after it, is allowed, whatever the allow-list. *)
Theorem origin_holding_loopback_text_is_allowed
  (o : PluginOptions) (before after name : string) :
  In name ["localhost"; "127.0.0.1"; "[::1]"] ->
  isOriginAllowed o (Some (before ++ name ++ after)) = true.
Proof.
  intros I. unfold isOriginAllowed.
  destruct (String.eqb_spec (before ++ name ++ after) "") as [E|_].
  - exfalso. destruct before; [|discriminate].
    simpl in I. destruct I as [<-|[<-|[<-|[]]]]; discriminate.
  - simpl in I. destruct I as [<-|[<-|[<-|[]]]]; rewrite includes_app;
      rewrite ?orb_true_r; reflexivity.
Qed.

Lemma origin_holding_loopback_text_is_allowed_witness :
  isOriginAllowed defaultOptions
    (Some ("http://evil.example/" ++ "localhost" ++ "")) = true.
Proof.
  apply (origin_holding_loopback_text_is_allowed defaultOptions
           "http://evil.example/" "" "localhost").
  simpl. auto.
Defined.

(** X14. An empty string in the allow-list lets every origin in: each
    non-empty origin contains it. *)
Theorem empty_allowed_origin_allows_all (o : PluginOptions) (origin : string) :
  In "" (allowedOrigins o) -> origin <> "" ->
  isOriginAllowed o (Some origin) = true.
Proof.
  intros I N. unfold isOriginAllowed.
  destruct (String.eqb_spec origin "") as [E|_]; [contradiction|].
  destruct (includes origin "localhost" || includes origin "127.0.0.1"
            || includes origin "[::1]"); [reflexivity|].
  apply existsb_exists. exists "". split; [exact I | apply includes_empty].
Qed.

Lemma empty_allowed_origin_allows_all_witness :
  isOriginAllowed
    {| isRoot := true; isBareIdentifier := fun id => startsWith id "@";
       importMapEndpoint := "/__current_import_map";
       importMapSenderEndpoint := "/__collagejs-import-map-sender.js";
       allowedOrigins := [""]; importMapTimeout := 5000 |}
    (Some "http://evil.example") = true.
Proof.
  apply (empty_allowed_origin_allows_all
           {| isRoot := true; isBareIdentifier := fun id => startsWith id "@";
              importMapEndpoint := "/__current_import_map";
              importMapSenderEndpoint := "/__collagejs-import-map-sender.js";
              allowedOrigins := [""]; importMapTimeout := 5000 |}
           "http://evil.example").
  - simpl. auto.
  - discriminate.
Defined.

(** An import map whose targets are strings, as the specification of
    import maps has them, is logged without a throw. *)
Lemma string_targets_log_without_throw (v : json) :
  (forall key value, In (key, value) (importEntries v) -> exists u, value = JString u) ->
  logsWithoutThrow v = true.
Proof.
  intros H. apply forallb_forall. intros [key value] I.
  destruct (H key value I) as (u & ->). reflexivity.
Qed.

(** A request with neither [Origin] nor [Referer], or with both empty,
    is refused whatever the allow-list holds. *)
Lemma missing_origin_is_refused (o : PluginOptions) (req : Request) :
  (headers_origin req = None \/ headers_origin req = Some "") ->
  (headers_referer req = None \/ headers_referer req = Some "") ->
  isOriginAllowed o (originOf req) = false.
Proof.
  unfold originOf, isOriginAllowed.
  intros [-> | ->] [-> | ->]; reflexivity.
Qed.

End ServerMoreFacts.

(** ** What the sender script middleware sends *)

Module SenderMiddlewareFacts.
Import JsString Regex RegexSpec Injector JsObject Json Server ServerSpec PathSpec.
Import JsStringFacts RegexFacts StringMoreFacts SlashFacts ServerFacts ServerMoreFacts.

Lemma search_finds m r s p e :
  forall n from,
    from <= p < from + n ->
    (forall q, from <= q < p -> match_at m r s q = None) ->
    match_at m r s p = Some e ->
    search m r s n from = Some (p, e).
Proof.
  induction n as [|n IH]; intros from R N M; [lia|]. simpl.
  destruct (Nat.eq_dec from p) as [->|Ne].
  - now rewrite M.
  - rewrite N by lia. apply IH; [lia | | exact M]. intros q Hq. apply N. lia.
Qed.

(** A match of [/}\)\(\);$/] is the text [})();] at the very end. *)
Lemma tail_match (s : string) (i e : nat) :
  Matches false s senderTail i e <->
  slice_from s i = "})();" /\ e = String.length s.
Proof.
  unfold senderTail. simpl Lit. split.
  - intros H.
    repeat match goal with
           | H : Matches _ _ (Seq _ _) _ _ |- _ => inversion H; subst; clear H
           | H : Matches _ _ (Chr _) _ _ |- _ => inversion H; subst; clear H
           | H : Matches _ _ Eol _ _ |- _ => inversion H; subst; clear H
           end.
    match goal with E : at_eol _ _ _ = true |- _ => apply at_eol_false in E end.
    split; [|assumption].
    apply string_ext. intros q. rewrite get_slice_from.
    do 5 (destruct q as [|q];
          [rewrite ?Nat.add_0_r, ?Nat.add_succ_r, ?Nat.add_0_r; simpl; assumption|]).
    simpl. apply get_none_iff. lia.
  - intros (E & ->).
    assert (forall q, String.get (i + q) s = String.get q "})();") as G
        by (intros q; now rewrite <- get_slice_from, E).
    assert (String.length s = i + 5) as L.
    { pose proof (length_slice_from s i) as Ls. rewrite E in Ls. simpl in Ls.
      lia. }
    rewrite L.
    pose proof (G 0) as G0. pose proof (G 1) as G1. pose proof (G 2) as G2.
    pose proof (G 3) as G3. pose proof (G 4) as G4.
    rewrite Nat.add_0_r in G0. simpl in G0, G1, G2, G3, G4.
    apply MSeq with (S i); [now constructor|].
    apply MSeq with (S (S i)); [constructor; now rewrite <- G1; f_equal; lia|].
    apply MSeq with (S (S (S i))); [constructor; now rewrite <- G2; f_equal; lia|].
    apply MSeq with (S (S (S (S i)))); [constructor; now rewrite <- G3; f_equal; lia|].
    apply MSeq with (i + 5); [replace (i + 5) with (S (S (S (S (S i))))) by lia;
                              constructor; now rewrite <- G4; f_equal; lia|].
    constructor. apply at_eol_false. now symmetry.
Qed.

Lemma slice_from_app_length (a b : string) :
  slice_from (a ++ b) (String.length a) = b.
Proof.
  induction a as [|c a IH]; simpl; [apply slice_from_0 | exact IH].
Qed.

Lemma slice_to_app_length (a b : string) :
  slice_to (a ++ b) (String.length a) = a.
Proof.
  induction a as [|c a IH]; simpl; [apply slice_to_0 | now rewrite IH].
Qed.

Lemma exec_tail (body : string) :
  exec false senderTail (body ++ "})();") 0
  = Some (String.length body, String.length (body ++ "})();")).
Proof.
  unfold exec. rewrite Nat.sub_0_r.
  assert (Matches false (body ++ "})();") senderTail (String.length body)
                  (String.length (body ++ "})();"))) as M.
  { apply tail_match. split; [apply slice_from_app_length | reflexivity]. }
  destruct (match_at false senderTail (body ++ "})();") (String.length body))
    as [e|] eqn:E.
  - pose proof (match_at_some _ _ _ _ _ E) as ME. apply tail_match in ME as (_ & ->).
    apply search_finds; [rewrite length_app; simpl; lia | | exact E].
    intros q Hq. destruct (match_at false senderTail (body ++ "})();") q) as [e'|] eqn:Q;
      [|reflexivity].
    apply match_at_some, tail_match in Q as (Sq & _). exfalso.
    pose proof (length_slice_from (body ++ "})();") q) as L.
    rewrite Sq, length_app in L. simpl in L. lia.
  - exfalso. now apply (match_at_none _ _ _ _ E) in M.
Qed.

Lemma no_dollar_cons (c : ascii) (s : string) :
  includes (String c s) "$" = false -> c <> "$"%char /\ includes s "$" = false.
Proof.
  cbn [includes].
  change (String.prefix "$" (String c s))
    with (if ascii_dec "$" c then String.prefix "" s else false).
  destruct (ascii_dec "$" c) as [<-|N].
  - destruct s; discriminate.
  - simpl. intros H. split; [congruence | exact H].
Qed.

Lemma no_dollar_app (a b : string) :
  includes a "$" = false -> includes b "$" = false -> includes (a ++ b) "$" = false.
Proof.
  intros A B. induction a as [|c a IH]; [exact B|].
  apply no_dollar_cons in A as [N A].
  change (String c a ++ b) with (String c (a ++ b)). cbn [includes].
  change (String.prefix "$" (String c (a ++ b)))
    with (if ascii_dec "$" c then String.prefix "" (a ++ b) else false).
  destruct (ascii_dec "$" c); [congruence|]. simpl. now apply IH.
Qed.

Lemma substitution_cons (c : ascii) (r before matched after : string) :
  c <> "$"%char ->
  substitution (String c r) before matched after
  = String c (substitution r before matched after).
Proof.
  intros N. destruct c as [[] [] [] [] [] [] [] []]; try reflexivity.
  exfalso. apply N. reflexivity.
Qed.

(** A replacement text without [$] stands for itself. *)
Lemma substitution_plain (repl before matched after : string) :
  includes repl "$" = false -> substitution repl before matched after = repl.
Proof.
  induction repl as [|c r IH]; intros H; [reflexivity|].
  apply no_dollar_cons in H as [N H].
  rewrite substitution_cons by exact N. now rewrite IH.
Qed.

(** X15. A sender script that ends in [})();] is sent with that closing call
    given its two arguments, the is-root literal and the endpoint URL (a
    URL without [$]); the text before it is sent as it is. *)
Theorem sender_script_gets_its_arguments
  (o : PluginOptions) (config : ResolvedConfig) (text : string) (s : Shared) :
  includes (importMapEndpointUrl o config) "$" = false ->
  senderMiddleware o config (inr (text ++ "})();")) (enter s)
  = (Returned tt,
     {| shared := s;
        res := sent 200 [("Content-Type", "application/javascript");
                         ("Access-Control-Allow-Origin", "*")]
                 (text ++ "})(" ++ (if isRoot o then "true" else "false") ++ ", '"
                  ++ importMapEndpointUrl o config ++ "');");
        nextCalls := 0; logged := [] |}).
Proof.
  intros D. unfold senderMiddleware, writeHead, try_catch, bind, lift, ret, end_.
  cbn [enter res head shared nextCalls logged Server.body].
  unfold replace_first. rewrite exec_tail.
  rewrite slice_to_app_length, substitution_plain.
  - rewrite (slice_from_length (text ++ "})();")) by lia.
    rewrite app_empty_r. reflexivity.
  - apply (no_dollar_app "})("). { reflexivity. }
    apply no_dollar_app. { destruct (isRoot o); reflexivity. }
    apply (no_dollar_app ", '"). { reflexivity. }
    apply no_dollar_app; [exact D | reflexivity].
Qed.

Lemma sender_script_gets_its_arguments_witness :
  senderMiddleware defaultOptions {| base := "/app/"; command := serve |}
    (inr ("(function (isRoot, postEndpoint) { run(); " ++ "})();")) (enter initialShared)
  = (Returned tt,
     {| shared := initialShared;
        res := ServerSpec.sent 200 [("Content-Type", "application/javascript");
                         ("Access-Control-Allow-Origin", "*")]
                 ("(function (isRoot, postEndpoint) { run(); " ++ "})(" ++ "true" ++ ", '"
                  ++ importMapEndpointUrl defaultOptions
                       {| base := "/app/"; command := serve |} ++ "');");
        nextCalls := 0; logged := [] |}).
Proof.
  apply (sender_script_gets_its_arguments defaultOptions
           {| base := "/app/"; command := serve |}
           "(function (isRoot, postEndpoint) { run(); " initialShared).
  vm_compute. reflexivity.
Defined.

(** X16. A sender script that does not end in [})();], one that ends in a
    line break for instance, is sent unchanged: the closing call keeps no
    arguments. *)
Theorem sender_script_without_tail_is_sent_unchanged
  (o : PluginOptions) (config : ResolvedConfig) (script : string) (s : Shared) :
  endsWith script "})();" = false ->
  senderMiddleware o config (inr script) (enter s)
  = (Returned tt,
     {| shared := s;
        res := sent 200 [("Content-Type", "application/javascript");
                         ("Access-Control-Allow-Origin", "*")] script;
        nextCalls := 0; logged := [] |}).
Proof.
  intros E. unfold senderMiddleware, writeHead, try_catch, bind, lift, ret, end_.
  cbn [enter res head shared nextCalls logged Server.body].
  unfold replace_first.
  destruct (exec false senderTail script 0) as [[i e]|] eqn:X; [|reflexivity].
  exfalso. unfold exec in X. apply search_some in X as (_ & M & _).
  apply match_at_some, tail_match in M as (Sl & ->).
  pose proof (length_slice_from script i) as L. rewrite Sl in L. simpl in L.
  unfold endsWith in E. simpl String.length in E.
  replace (String.length script - 5) with i in E by lia.
  rewrite Sl in E. rewrite (proj2 (Nat.leb_le 5 (String.length script))) in E by lia.
  discriminate.
Qed.

Lemma sender_script_without_tail_is_sent_unchanged_witness :
  senderMiddleware defaultOptions {| base := "/app/"; command := serve |}
    (inr ("(function () { run(); })();" ++ newline)) (enter initialShared)
  = (Returned tt,
     {| shared := initialShared;
        res := ServerSpec.sent 200 [("Content-Type", "application/javascript");
                         ("Access-Control-Allow-Origin", "*")]
                 ("(function () { run(); })();" ++ newline);
        nextCalls := 0; logged := [] |}).
Proof.
  apply (sender_script_without_tail_is_sent_unchanged defaultOptions
           {| base := "/app/"; command := serve |}
           ("(function () { run(); })();" ++ newline) initialShared).
  reflexivity.
Defined.

End SenderMiddlewareFacts.

(** ** More on the resolver *)

Module ResolverMoreFacts.
Import JsString JsObject Resolver ResolverSpec JsStringFacts ResolverFacts StringMoreFacts.

Lemma prefix_split (p s : string) :
  String.prefix p s = true -> s = p ++ slice_from s (String.length p).
Proof.
  revert s; induction p as [|c p IH]; intros s H.
  - simpl. now rewrite slice_from_0.
  - destruct s as [|d s]; [discriminate|].
    change (String.prefix (String c p) (String d s))
      with (if ascii_dec c d then String.prefix p s else false) in H.
    destruct (ascii_dec c d) as [->|]; [|discriminate].
    simpl. f_equal. now apply IH.
Qed.

(** X17. What the resolver returns comes from the map: a string it returns
    is either the non-empty target of the specifier's own key, or, for an
    entry whose key ends in [/] and begins the specifier, the entry's
    target followed by what the specifier has after the key. *)
Theorem resolved_string_comes_from_an_entry
  (o : Record string) (sc : option (Record (Record string)))
  (ig : option (Record string)) (id_ u : string) :
  resolveFromImportMap {| imports := Some o; scopes := sc; integrity := ig |} id_
  = VString u ->
  (get_own o id_ = Some u /\ u <> "")
  \/ exists key target rest,
       In (key, target) o /\ endsWith key "/" = true /\
       id_ = key ++ rest /\ u = target ++ rest.
Proof.
  unfold resolveFromImportMap, Get. cbn [imports].
  rewrite prefix_loop_entries, prefix_loop_first. unfold first_prefix_match.
  assert (match find (prefix_applies id_) o with
          | Some (key, value) => VString (value ++ slice_from id_ (String.length key))
          | None => VNull
          end = VString u ->
          exists key target rest,
            In (key, target) o /\ endsWith key "/" = true /\
            id_ = key ++ rest /\ u = target ++ rest) as P.
  { destruct (find (prefix_applies id_) o) as [[key target]|] eqn:F; [|discriminate].
    intros [= <-]. apply find_some in F as [I A].
    unfold prefix_applies in A. cbn [fst] in A. apply andb_true_iff in A as [E S].
    exists key, target, (slice_from id_ (String.length key)).
    repeat split; try assumption. now apply prefix_split. }
  destruct (get_own o id_) as [target|].
  - cbn [truthy]. destruct (String.eqb_spec target "") as [->|N]; cbn [negb].
    + intros H. right. now apply P.
    + intros [= <-]. left. split; [reflexivity | exact N].
  - destruct (inherited id_); cbn [truthy]; [discriminate|].
    intros H. right. now apply P.
Qed.

Lemma resolved_string_comes_from_an_entry_witness :
  (get_own [("@a/b", "cd"); ("@demo/", "http://x/")] "@demo/foo.js"
   = Some "http://x/foo.js" /\ "http://x/foo.js" <> "")
  \/ exists key target rest,
       In (key, target) [("@a/b", "cd"); ("@demo/", "http://x/")] /\
       endsWith key "/" = true /\
       "@demo/foo.js" = key ++ rest /\ "http://x/foo.js" = target ++ rest.
Proof.
  apply (resolved_string_comes_from_an_entry
           [("@a/b", "cd"); ("@demo/", "http://x/")] None None
           "@demo/foo.js" "http://x/foo.js").
  reflexivity.
Defined.

Lemma jsval_eqb_eq (a b : jsval) : jsval_eqb a b = true <-> a = b.
Proof.
  destruct a, b; simpl; split; try discriminate; try reflexivity;
    try (intros H; apply String.eqb_eq in H; congruence);
    intros [= ->]; apply String.eqb_refl.
Qed.

Lemma Set_add_in (x : jsval) (s : list jsval) (y : jsval) :
  In y (Set_add x s) <-> y = x \/ In y s.
Proof.
  unfold Set_add. destruct (existsb (jsval_eqb x) s) eqn:E.
  - split; [auto|]. intros [Hy|I]; [subst y | exact I].
    apply existsb_exists in E as (z & I & Q). apply jsval_eqb_eq in Q. now subst.
  - rewrite in_app_iff. simpl. intuition auto.
Qed.

Lemma Set_add_NoDup (x : jsval) (s : list jsval) :
  NoDup s -> NoDup (Set_add x s).
Proof.
  intros N. unfold Set_add. destruct (existsb (jsval_eqb x) s) eqn:E; [exact N|].
  apply NoDup_app; [exact N | repeat constructor; auto|].
  intros y I [Hx|[]]. subst y.
  assert (existsb (jsval_eqb x) s = true); [|congruence].
  apply existsb_exists. exists x. split; [exact I | now apply jsval_eqb_eq].
Qed.

(** X18. [externalizedModules] is a set: a call of [resolveId] keeps it free
    of duplicates, keeps what it held, and adds at most the identifier the
    call returned; a specifier the predicate rejects adds nothing. *)
Theorem externalizedModules_stays_a_set
  (isBare : string -> bool) (im : ImportMap) (ext : list jsval) (id_ : string) :
  NoDup ext ->
  NoDup (snd (resolveId isBare im ext id_)) /\
  (forall y, In y ext -> In y (snd (resolveId isBare im ext id_))) /\
  (forall y, In y (snd (resolveId isBare im ext id_)) ->
             In y ext \/ exists r, fst (resolveId isBare im ext id_) = Some r /\ y = id r) /\
  (isBare id_ = false -> snd (resolveId isBare im ext id_) = ext).
Proof.
  intros N. unfold resolveId. destruct (isBare id_); cbn [negb fst snd].
  - split; [now apply Set_add_NoDup|]. split.
    + intros y I. apply Set_add_in. now right.
    + split; [|discriminate]. intros y I. apply Set_add_in in I as [->|I]; [|now left].
      right. eexists. split; reflexivity.
  - repeat split; auto.
Qed.

Lemma externalizedModules_stays_a_set_witness :
  NoDup (snd (resolveId (fun x => startsWith x "@")
                {| imports := Some []; scopes := None; integrity := None |}
                [VString "@a"] "@a")).
Proof.
  apply (externalizedModules_stays_a_set (fun x => startsWith x "@")
           {| imports := Some []; scopes := None; integrity := None |}
           [VString "@a"] "@a").
  repeat constructor. simpl. tauto.
Defined.

(** X19. Resolving the same specifier again records nothing new. *)
Theorem resolveId_again_records_nothing
  (isBare : string -> bool) (im : ImportMap) (ext : list jsval) (id_ : string) :
  snd (resolveId isBare im (snd (resolveId isBare im ext id_)) id_)
  = snd (resolveId isBare im ext id_).
Proof.
  unfold resolveId. destruct (isBare id_); cbn [negb snd]; [|reflexivity].
  set (x := or_else (resolveFromImportMap im id_) (VString id_)).
  unfold Set_add at 1.
  assert (existsb (jsval_eqb x) (Set_add x ext) = true) as ->; [|reflexivity].
  apply existsb_exists. exists x. split; [apply Set_add_in; now left|].
  now apply jsval_eqb_eq.
Qed.

End ResolverMoreFacts.

(** ** More on the injector *)

Module InjectorMoreFacts.
Import JsString Regex RegexSpec Injector JsStringFacts RegexFacts InjectorFacts.
Import StringMoreFacts ServerMoreFacts.

(** X20. [findLastImportStatement] returns -1 or an index from 8 up to the
    length of the code: the slices that [transform] takes stay in range. *)
Theorem findLastImportStatement_in_range (code : string) :
  findLastImportStatement code = (-1)%Z \/
  (8 <= findLastImportStatement code <= Z.of_nat (String.length code))%Z.
Proof.
  destruct (findLastImportStatement_spec code)
    as [[R _]|(p & e & R & M & Le & _)]; [now left|].
  right. rewrite R.
  apply import_match_shape in M as (_ & w & _ & _ & _ & _ & L & _). lia.
Qed.

Lemma includes_slice_from (s x : string) (w : nat) :
  String.prefix x (slice_from s w) = true -> x <> "" -> includes s x = true.
Proof.
  revert s; induction w as [|w IH]; intros s P N.
  - rewrite slice_from_0 in P. now apply includes_prefix.
  - destruct s as [|c s].
    + simpl in P. destruct x; [congruence | discriminate].
    + simpl in P. apply includes_cons. now apply IH.
Qed.

(** X21. Code in which the text [import] does not occur has no import
    statement for the scan to find: the sender script is put first. *)
Theorem code_without_import_gets_sender_first
  (imsScript code id_ : string) :
  includes code "import" = false ->
  endsWith id_ "/vite/dist/client/client.mjs" = true ->
  findLastImportStatement code = (-1)%Z /\
  transform serve imsScript code id_ = Some (imsScript ++ newline ++ code).
Proof.
  intros I E.
  assert (findLastImportStatement code = (-1)%Z) as R.
  { destruct (findLastImportStatement_spec code)
      as [[R _]|(p & e & _ & M & _)]; [exact R|]. exfalso.
    apply import_match_shape in M as (_ & w & _ & _ & S & _).
    unfold startsWith in S.
    rewrite (includes_slice_from code "import" w S) in I; discriminate. }
  split; [exact R|]. unfold transform. cbn [Command_eqb]. rewrite E, R. reflexivity.
Qed.

Lemma code_without_import_gets_sender_first_witness :
  transform serve "SENDER;" "run();" "/node_modules/vite/dist/client/client.mjs"
  = Some ("SENDER;" ++ newline ++ "run();").
Proof.
  apply (code_without_import_gets_sender_first "SENDER;" "run();"
           "/node_modules/vite/dist/client/client.mjs"); reflexivity.
Defined.

Lemma app_assoc_str (a b c : string) : (a ++ b) ++ c = a ++ b ++ c.
Proof. induction a as [|d a IH]; simpl; [reflexivity | now rewrite IH]. Qed.

(** X22. Whatever [transform] returns for the client script holds the whole
    sender script, and [transform] returns nothing in a build and for any
    other module. *)
Theorem transform_output_holds_the_sender
  (command : Command) (imsScript code id_ : string) :
  match transform command imsScript code id_ with
  | Some out =>
      command = serve /\ endsWith id_ "/vite/dist/client/client.mjs" = true /\
      includes out imsScript = true
  | None => command = build \/ endsWith id_ "/vite/dist/client/client.mjs" = false
  end.
Proof.
  unfold transform. destruct command; cbn [Command_eqb]; [|now left].
  destruct (endsWith id_ "/vite/dist/client/client.mjs"); [|now right].
  destruct (findLastImportStatement code =? -1)%Z.
  - repeat split. apply (includes_app "" imsScript).
  - repeat split. rewrite <- app_assoc_str. apply includes_app.
Qed.

End InjectorMoreFacts.

(** ** The sender script *)

Module SenderScriptFacts.
Import JsString JsObject Json Server ServerSpec Sender SenderSpec.
Import JsStringFacts StringMoreFacts ServerFacts.

Lemma get_own_set (t : Record json) (k k' : string) (v : json) :
  get_own (set t k v) k' = if String.eqb k k' then Some v else get_own t k'.
Proof.
  induction t as [|[a w] t IH]; simpl.
  - destruct (String.eqb k k'); reflexivity.
  - destruct (String.eqb_spec a k) as [->|N]; simpl.
    + destruct (String.eqb k k'); reflexivity.
    + rewrite IH. destruct (String.eqb_spec k k') as [<-|N'].
      * destruct (String.eqb_spec a k); [contradiction | reflexivity].
      * reflexivity.
Qed.

Lemma get_own_none {A} (l : Record A) (k : string) :
  ~ In k (map fst l) -> get_own l k = None.
Proof.
  induction l as [|[a w] l IH]; simpl; [reflexivity|].
  intros N. destruct (String.eqb_spec a k); [tauto | apply IH; tauto].
Qed.

Lemma get_own_in {A} (l : Record A) (k : string) (v : A) :
  NoDup (map fst l) -> In (k, v) l -> get_own l k = Some v.
Proof.
  induction l as [|[a w] l IH]; simpl; [contradiction|].
  intros N [[= -> ->]|I].
  - now rewrite String.eqb_refl.
  - inversion N as [|? ? Na Nl]; subst.
    destruct (String.eqb_spec a k) as [->|_]; [|now apply IH].
    exfalso. apply Na. apply in_map_iff. now exists (k, v).
Qed.

Lemma get_own_some_in {A} (l : Record A) (k : string) (v : A) :
  get_own l k = Some v -> In (k, v) l.
Proof.
  induction l as [|[a w] l IH]; simpl; [discriminate|].
  destruct (String.eqb_spec a k) as [->|_].
  - intros [= ->]. now left.
  - intros H. right. now apply IH.
Qed.

Lemma fold_assign_lookup (l : list (string * json)) (k : string) :
  NoDup (map fst l) -> k <> "__proto__" ->
  forall t, get_own (fold_left assign_one l t) k
            = match get_own l k with
              | Some v => Some v
              | None => get_own t k
              end.
Proof.
  intros N K. induction l as [|[a w] l IH]; intros t; [reflexivity|].
  inversion N as [|? ? Na Nl]; subst. simpl fold_left. rewrite (IH Nl).
  simpl get_own. destruct (String.eqb_spec a k) as [->|Ne].
  - rewrite (get_own_none l k Na). unfold assign_one. cbn [fst snd].
    destruct (String.eqb_spec k "__proto__"); [contradiction|].
    rewrite get_own_set. now rewrite String.eqb_refl.
  - destruct (get_own l k); [reflexivity|].
    unfold assign_one. cbn [fst snd].
    destruct (String.eqb a "__proto__"); [reflexivity|].
    rewrite get_own_set. destruct (String.eqb_spec a k); [contradiction | reflexivity].
Qed.

Lemma insert_by_index_perm {A} (x : N * (string * A)) (l : list (N * (string * A))) :
  Permutation (x :: l) (insert_by_index x l).
Proof.
  induction l as [|y l IH]; simpl; [reflexivity|].
  destruct (fst x <=? fst y)%N; [reflexivity|].
  rewrite perm_swap. now constructor.
Qed.

Lemma entries_perm {A} (o : Record A) : Permutation (entries o) o.
Proof.
  unfold entries. induction o as [|[k v] o IH]; [constructor|].
  simpl. unfold is_array_index. destruct (array_index k) as [n|]; simpl.
  - rewrite <- (insert_by_index_perm (n, (k, v))). simpl. now constructor.
  - rewrite <- Permutation_middle. now constructor.
Qed.

Lemma get_own_entries {A} (o : Record A) (k : string) :
  NoDup (map fst o) -> get_own (entries o) k = get_own o k.
Proof.
  intros N.
  assert (NoDup (map fst (entries o))) as Ne.
  { apply (Permutation_NoDup (l := map fst o)); [|exact N].
    apply Permutation_map, Permutation_sym, entries_perm. }
  destruct (get_own o k) as [v|] eqn:G.
  - apply get_own_in; [exact Ne|].
    apply (Permutation_in _ (Permutation_sym (entries_perm o))).
    now apply get_own_some_in.
  - destruct (get_own (entries o) k) as [v|] eqn:Ge; [|reflexivity].
    apply get_own_some_in in Ge.
    apply (Permutation_in _ (entries_perm o)) in Ge.
    rewrite (get_own_in o k v N Ge) in G. discriminate.
Qed.

Section BrowserFacts.
Variable JSON_parse : string -> option json.
Variable URL_ : string -> option URLParts.

Lemma extractAll_fails (scripts : list (option string)) (script : option string) :
  In script scripts ->
  JSON_parse (scriptText script) = None \/ JSON_parse (scriptText script) = Some JNull ->
  forall c, extractAll JSON_parse c scripts = None.
Proof.
  intros I F. induction scripts as [|x scripts IH]; [contradiction|].
  intros c. simpl. destruct I as [->|I].
  - unfold extractOne. destruct F as [-> | ->]; reflexivity.
  - destruct (extractOne JSON_parse c x); [now apply IH | reflexivity].
Qed.

(** X23. Extraction is all or nothing: a page without an import map
    script, and a page where one of the scripts does not parse, or parses
    to [null], gives no import map at all, whatever the other scripts hold. *)
Theorem extractImportMap_all_or_nothing (scripts : list (option string)) :
  (scripts = [] -> extractImportMap JSON_parse scripts = None) /\
  (forall script,
      In script scripts ->
      JSON_parse (scriptText script) = None \/
      JSON_parse (scriptText script) = Some JNull ->
      extractImportMap JSON_parse scripts = None).
Proof.
  split.
  - intros ->. reflexivity.
  - intros script I F. unfold extractImportMap.
    destruct (List.length scripts =? 0); [reflexivity|].
    now apply (extractAll_fails scripts script).
Qed.

Lemma insert_by_index_in {A} (x y : N * (string * A)) (l : list (N * (string * A))) :
  In x (insert_by_index y l) -> x = y \/ In x l.
Proof.
  induction l as [|z l IH]; simpl.
  - intros [<-|[]]. now left.
  - destruct (fst y <=? fst z)%N; simpl.
    + intros [<-|[<-|I]]; auto.
    + intros [<-|I]; [auto|]. destruct (IH I); auto.
Qed.

Lemma indexed_in {A} (o : Record A) (e : N * (string * A)) :
  In e (indexed o) -> In (snd e) o.
Proof.
  induction o as [|[k v] o IH]; simpl; [contradiction|].
  destruct (array_index k) as [n|].
  - intros I. apply insert_by_index_in in I as [->|I]; [now left | right; auto].
  - intros I. right. auto.
Qed.

Lemma entries_in {A} (o : Record A) (kv : string * A) :
  In kv (entries o) -> In kv o.
Proof.
  unfold entries. intros I. apply in_app_or in I as [I|I].
  - apply in_map_iff in I as (e & <- & I). now apply indexed_in.
  - now apply filter_In in I as [I _].
Qed.

Lemma Set_add_str_in (x : string) (s : list string) (y : string) :
  In y (Set_add x s) -> y = x \/ In y s.
Proof.
  unfold Set_add. destruct (existsb (String.eqb x) s); [auto|].
  intros I. apply in_app_or in I as [I|[<-|[]]]; auto.
Qed.

Lemma Set_add_str_NoDup (x : string) (s : list string) :
  NoDup s -> NoDup (Set_add x s).
Proof.
  intros N. unfold Set_add. destruct (existsb (String.eqb x) s) eqn:E; [exact N|].
  apply NoDup_app; [exact N | repeat constructor; auto|].
  intros y I [Hx|[]]. subst y.
  assert (existsb (String.eqb x) s = true); [|congruence].
  apply existsb_exists. exists x. split; [exact I | apply String.eqb_refl].
Qed.

Lemma localhostOrigins_invariant (importMap : CombinedImportMap) (values : list json) :
  (forall v, In v values -> exists key, In (key, v) (imports importMap)) ->
  forall origins,
    NoDup origins /\ (forall origin, In origin origins -> namesLocalServer URL_ importMap origin) ->
    NoDup (fold_left (addLocalhostOrigin URL_) values origins) /\
    (forall origin, In origin (fold_left (addLocalhostOrigin URL_) values origins) ->
                    namesLocalServer URL_ importMap origin).
Proof.
  induction values as [|v values IH]; intros V origins [N P]; [now split|].
  simpl. apply IH; [intros w I; apply V; now right|].
  destruct (V v (or_introl eq_refl)) as (key & K).
  unfold addLocalhostOrigin. destruct v as [| | |url| |]; try (now split).
  destruct (includes url "localhost") eqn:L; [|now split].
  destruct (URL_ url) as [urlObj|] eqn:U; [|now split].
  destruct (String.eqb (hostname urlObj) "localhost"
            || String.eqb (hostname urlObj) "127.0.0.1") eqn:H; [|now split].
  split; [now apply Set_add_str_NoDup|].
  intros origin I. apply Set_add_str_in in I as [->|I]; [|now apply P].
  exists key, url, urlObj. repeat split; try assumption.
  apply orb_true_iff in H as [H|H]; apply String.eqb_eq in H; auto.
Qed.

(** X24. Each import map script overrides what the scripts before it said
    for the specifiers it names, and keeps the rest: after a script whose
    [imports] is the object [i], a specifier maps to its target in [i] if
    [i] has it, else to what it mapped to before. *)
Theorem later_script_wins
  (c c' : CombinedImportMap) (script : option string)
  (d i : list (string * json)) (k : string) :
  JSON_parse (scriptText script) = Some (JObject d) ->
  get_own d "imports" = Some (JObject i) ->
  NoDup (map fst i) ->
  extractOne JSON_parse c script = Some c' ->
  k <> "__proto__" ->
  get_own (imports c') k
  = match get_own i k with
    | Some target => Some target
    | None => get_own (imports c) k
    end.
Proof.
  intros P I N E K. unfold extractOne in E. rewrite P in E.
  cbn [prop] in E. rewrite I in E.
  change (truthy (Some (JObject i))) with true in E.
  assert (imports c' = Object_assign (imports c) (JObject i)) as ->.
  { destruct (get_own d "scopes") as [sc|]; [destruct (truthy (Some sc))|];
      injection E as <-; reflexivity. }
  unfold Object_assign. cbn [Object_entries].
  rewrite fold_assign_lookup; [| |exact K].
  - now rewrite get_own_entries.
  - apply (Permutation_NoDup (l := map fst i)); [|exact N].
    apply Permutation_map, Permutation_sym, entries_perm.
Qed.

(** X25. [getLocalhostOrigins] returns each origin once, and every origin it
    returns is [protocol//host] of a string in [imports] that contains the
    text [localhost], parses as a URL and has the host name [localhost] or
    [127.0.0.1]. *)
Theorem getLocalhostOrigins_names_local_servers (importMap : CombinedImportMap) :
  NoDup (getLocalhostOrigins URL_ importMap) /\
  forall origin, In origin (getLocalhostOrigins URL_ importMap) ->
                 namesLocalServer URL_ importMap origin.
Proof.
  unfold getLocalhostOrigins. apply localhostOrigins_invariant.
  - intros v I. apply in_map_iff in I as ([k w] & <- & I).
    exists k. now apply entries_in.
  - split; [constructor | intros ? []].
Qed.

(** X26. A server that the import map names by [127.0.0.1] alone is not
    found: when no string in [imports] contains the text [localhost],
    [getLocalhostOrigins] returns nothing. *)
Theorem getLocalhostOrigins_needs_the_text_localhost (importMap : CombinedImportMap) :
  (forall key url, In (key, JString url) (imports importMap) ->
                   includes url "localhost" = false) ->
  getLocalhostOrigins URL_ importMap = [].
Proof.
  intros H. destruct (getLocalhostOrigins URL_ importMap) as [|origin l] eqn:E;
    [reflexivity|]. exfalso.
  assert (forall x, In x (getLocalhostOrigins URL_ importMap) ->
                    namesLocalServer URL_ importMap x) as S.
  { unfold getLocalhostOrigins. apply localhostOrigins_invariant.
    - intros v I. apply in_map_iff in I as ([k w] & <- & I).
      exists k. now apply entries_in.
    - split; [constructor | intros ? []]. }
  destruct (S origin) as (key & url & u & I & L & _); [rewrite E; now left|].
  rewrite (H key url I) in L. discriminate.
Qed.

Lemma fold_Set_add_head (l : list string) :
  forall x s, exists t, fold_left (fun s origin => Set_add origin s) l (x :: s) = x :: t.
Proof.
  induction l as [|o l IH]; intros x s; simpl; [now exists s|].
  unfold Set_add at 2. destruct (existsb (String.eqb o) (x :: s)); apply IH.
Qed.

Lemma fold_Set_add_NoDup (l : list string) :
  forall s, NoDup s -> NoDup (fold_left (fun s origin => Set_add origin s) l s).
Proof.
  induction l as [|o l IH]; intros s N; simpl; [exact N|].
  apply IH. now apply Set_add_str_NoDup.
Qed.

Lemma app_inv_tail_str (a b p : string) : a ++ p = b ++ p -> a = b.
Proof.
  intros E. assert (String.length a = String.length b) as L.
  { apply (f_equal String.length) in E. rewrite !length_app in E. lia. }
  revert b E L. induction a as [|c a IH]; intros [|d b] E L; try discriminate L.
  - reflexivity.
  - simpl in E, L. injection E as -> E. f_equal. apply IH; [exact E | lia].
Qed.

(** X27. The sender posts to each server once, every time the same import
    map; a root page posts to its own origin first; a page from which no
    import map is taken posts nothing. *)
Theorem initImportMapSender_targets
  (isRoot : bool) (postEndpoint locationOrigin : string)
  (scripts : list (option string)) :
  NoDup (map url (initImportMapSender JSON_parse URL_ isRoot postEndpoint
                    locationOrigin scripts)) /\
  (forall f, In f (initImportMapSender JSON_parse URL_ isRoot postEndpoint
                     locationOrigin scripts) ->
             extractImportMap JSON_parse scripts = Some (sent f)) /\
  (forall importMap,
      isRoot = true -> extractImportMap JSON_parse scripts = Some importMap ->
      hd_error (initImportMapSender JSON_parse URL_ isRoot postEndpoint
                  locationOrigin scripts)
      = Some {| url := locationOrigin ++ postEndpoint; sent := importMap |}) /\
  (extractImportMap JSON_parse scripts = None ->
   initImportMapSender JSON_parse URL_ isRoot postEndpoint locationOrigin scripts = []).
Proof.
  unfold initImportMapSender.
  destruct (extractImportMap JSON_parse scripts) as [importMap|];
    [|repeat split; try constructor; try contradiction; discriminate].
  set (start := if isRoot then Set_add locationOrigin [] else []).
  set (origins := fold_left (fun s origin => Set_add origin s)
                            (getLocalhostOrigins URL_ importMap) start).
  assert (NoDup origins) as N.
  { apply fold_Set_add_NoDup. subst start. destruct isRoot; repeat constructor.
    intros []. }
  split; [|split; [|split; [|discriminate]]].
  - destruct (List.length origins =? 0); [constructor|].
    rewrite map_map. cbn [url].
    clear -N. induction N as [|x l Nx N IH]; simpl; constructor; [|exact IH].
    intros I. apply in_map_iff in I as (y & E & I).
    apply app_inv_tail_str in E. now subst.
  - intros f I. destruct (List.length origins =? 0); [contradiction|].
    apply in_map_iff in I as (origin & <- & _). reflexivity.
  - intros im -> [= <-]. subst origins start.
    destruct (fold_Set_add_head (getLocalhostOrigins URL_ importMap) locationOrigin [])
      as (t & E).
    change (Set_add locationOrigin []) with [locationOrigin]. rewrite E. reflexivity.
Qed.

End BrowserFacts.

(** X28. What the sender posts is what the endpoint asks for: the value it
    sends has the keys [imports] and [scopes] and no other and passes
    [validateIm]; when every value under its [imports] has a string
    conversion, as every string has, a [POST] of it from an allowed origin
    is answered 200, stored whole and signals the event. *)
Theorem sender_payload_is_accepted
  (JSON_parse : string -> option json) (o : PluginOptions)
  (others : Shared -> Shared) (req : Request) (chunks : list string)
  (s : Shared) (c : CombinedImportMap) :
  method req = "POST" ->
  isOriginAllowed o (originOf req) = true ->
  JSON_parse (String.concat "" chunks) = Some (payload c) ->
  logsWithoutThrow (payload c) = true ->
  validateIm (payload c) = inr tt /\
  head (res (snd (receive JSON_parse o others req chunks (enter s))))
  = Some (200, ("Content-Type", "application/json") :: cors_headers) /\
  shared (snd (receive JSON_parse o others req chunks (enter s)))
  = {| importMap := payload c; signaled := true |}.
Proof.
  intros M A P L.
  assert (validateIm (payload c) = inr tt) as V by reflexivity.
  split; [exact V|].
  rewrite (receive_post _ _ _ _ _ _ M), A, onEnd_outcome, P, V, L.
  split; reflexivity.
Qed.

Lemma extractImportMap_all_or_nothing_witness :
  extractImportMap (parseTable [("{}", JObject [])]) [Some "{}"; Some "{"] = None.
Proof.
  apply (proj2 (extractImportMap_all_or_nothing (parseTable [("{}", JObject [])])
                  [Some "{}"; Some "{"]) (Some "{")).
  - simpl. auto.
  - left. reflexivity.
Defined.

Lemma later_script_wins_witness :
  get_own
    (imports {| imports := [("@a", JString "new"); ("@b", JString "kept")];
                scopes := [] |}) "@b"
  = Some (JString "kept").
Proof.
  apply (later_script_wins
           (parseTable [("S", JObject [("imports", JObject [("@a", JString "new")])])])
           {| imports := [("@a", JString "old"); ("@b", JString "kept")]; scopes := [] |}
           {| imports := [("@a", JString "new"); ("@b", JString "kept")]; scopes := [] |}
           (Some "S") [("imports", JObject [("@a", JString "new")])]
           [("@a", JString "new")] "@b").
  - reflexivity.
  - reflexivity.
  - repeat constructor. simpl. tauto.
  - reflexivity.
  - discriminate.
Defined.

Lemma getLocalhostOrigins_names_local_servers_witness :
  namesLocalServer sampleURL sampleMap "http://localhost:4101".
Proof.
  apply (proj2 (getLocalhostOrigins_names_local_servers sampleURL sampleMap)).
  vm_compute. auto.
Defined.

Lemma getLocalhostOrigins_needs_the_text_localhost_witness :
  getLocalhostOrigins sampleURL
    {| imports := [("@x", JString "http://127.0.0.1:4101/x.js")]; scopes := [] |} = [].
Proof.
  apply (getLocalhostOrigins_needs_the_text_localhost sampleURL
           {| imports := [("@x", JString "http://127.0.0.1:4101/x.js")]; scopes := [] |}).
  intros key url [[= <- <-]|[]]. reflexivity.
Defined.

Lemma initImportMapSender_targets_witness :
  hd_error (initImportMapSender
              (parseTable [("M", JObject [("imports", JObject (imports sampleMap))])])
              sampleURL true "/app/__current_import_map" "http://localhost:5173"
              [Some "M"])
  = Some {| Sender.url := "http://localhost:5173" ++ "/app/__current_import_map";
            Sender.sent := sampleMap |}.
Proof.
  apply (proj1 (proj2 (proj2 (initImportMapSender_targets
           (parseTable [("M", JObject [("imports", JObject (imports sampleMap))])])
           sampleURL true "/app/__current_import_map" "http://localhost:5173"
           [Some "M"]))) sampleMap); reflexivity.
Defined.

Lemma sender_payload_is_accepted_witness :
  shared (snd (receive (parseTable [("M", payload sampleMap)]) defaultOptions
                       (fun s => s) (post (Some "http://localhost:5173")) ["M"]
                       (enter initialShared)))
  = {| importMap := payload sampleMap; signaled := true |}.
Proof.
  apply (sender_payload_is_accepted (parseTable [("M", payload sampleMap)])
           defaultOptions (fun s => s) (post (Some "http://localhost:5173")) ["M"]
           initialShared sampleMap); reflexivity.
Defined.

End SenderScriptFacts.
